(** * sender_for_rpi: the ESP32 sketch that reports Wi-Fi station changes and
      RFID card reads to a host over the serial line.

    The sketch ([src/sender_for_rpi.ino]) is embedded as a state-passing
    program over a [World] that holds the sketch's two globals, the calls
    made on [Serial], and the call counters of the peripherals.  What the
    peripherals answer (clock, Wi-Fi driver, card reader, UART) is scripted
    by an [Env]. *)

From Stdlib Require Import List String Ascii ZArith NArith Lia Bool Arith
  Finite Permutation.
From Stdlib.Strings Require Import Byte.
Import ListNotations.
Local Open Scope string_scope.
Local Open Scope Z_scope.

(** ** Data *)

(** [uint8_t mac[6]] of [wifi_sta_info_t]. *)
Record MacAddr := mkMac {
  mac0 : byte; mac1 : byte; mac2 : byte;
  mac3 : byte; mac4 : byte; mac5 : byte
}.

(** [esp_err_t] is an [int]; [ESP_OK] is 0. *)
Definition esp_err_t := Z.
Definition ESP_OK : esp_err_t := 0.

(** The part of [wifi_sta_list_t] the sketch reads: the first [num] entries
    of [sta], each by its [mac]. *)
Definition wifi_sta_list_t := list MacAddr.

(** ArduinoJson values the sketch stores in a document. *)
Inductive JsonVariant :=
| JString (s : string)
| JUInt (n : Z).

(** A [StaticJsonDocument] holding one object: its members in insertion
    order. *)
Definition JsonDocument := list (string * JsonVariant).

(** [doc[key] = v]: replaces the member when the key is there, appends it
    otherwise. *)
Fixpoint doc_set (doc : JsonDocument) (key : string) (v : JsonVariant)
  : JsonDocument :=
  match doc with
  | [] => [(key, v)]
  | (k, x) :: rest =>
      if String.eqb k key then (k, v) :: rest
      else (k, x) :: doc_set rest key v
  end.

Fixpoint doc_get (doc : JsonDocument) (key : string) : option JsonVariant :=
  match doc with
  | [] => None
  | (k, x) :: rest => if String.eqb k key then Some x else doc_get rest key
  end.

(** An Arduino [String] handed to [Serial].  [serializeJson] belongs to
    ArduinoJson, not to the sketch, so its output is kept symbolic:
    [Json doc] stands for the text ArduinoJson writes for [doc]. *)
Inductive ArduinoString :=
| Text (s : string)
| Json (doc : JsonDocument).

Definition serializeJson (doc : JsonDocument) : ArduinoString := Json doc.

(** One call on [Serial].  [println] ends the line, [print] does not. *)
Inductive SerialCall :=
| Serial_print (s : ArduinoString)
| Serial_println (s : ArduinoString).

(** Calls on the card reader and the blocking waits. *)
Inductive BusCall :=
| PICC_HaltA
| delay (ms : Z).

(** What the reader answers to one [PICC_IsNewCardPresent] and to the
    [PICC_ReadCardSerial] that may follow it, and the first [uid.size] bytes
    of [uid.uidByte] after a successful read. *)
Record PiccFrame := mkPicc {
  card_present : bool;
  serial_read : bool;
  uid_bytes : list byte
}.

(** The scripted peripherals: the answer to the k-th call of each. *)
Record Env := mkEnv {
  clock : nat -> Z;                              (* millis() *)
  radio : nat -> esp_err_t * wifi_sta_list_t;   (* esp_wifi_ap_get_sta_list *)
  picc : nat -> PiccFrame;                       (* MFRC522 *)
  uart : nat -> Z                                (* size_t of a Serial write *)
}.

Record World := mkWorld {
  lastPoll : Z;                      (* unsigned long lastPoll *)
  prevStations : list string;        (* std::vector<String> prevStations *)
  Serial : list SerialCall;          (* calls made on Serial, oldest first *)
  mfrc522_uid : list byte;           (* mfrc522.uid *)
  bus : list BusCall;                (* reader commands and delays *)
  clock_reads : nat;
  radio_reads : nat;
  picc_reads : nat
}.

Definition POLL_INTERVAL : Z := 2000.

(** [unsigned long] is 32 bits wide on the ESP32. *)
Definition ulong (z : Z) : Z := z mod 2 ^ 32.

(** ** The state monad of the sketch *)

Definition M (A : Type) : Type := World -> A * World.

Definition ret {A} (a : A) : M A := fun w => (a, w).

Definition bind {A B} (m : M A) (k : A -> M B) : M B :=
  fun w => let (a, w') := m w in k a w'.

Declare Scope sketch_scope.
Delimit Scope sketch_scope with sketch.
Bind Scope sketch_scope with M.
Notation "x <- m ;; k" := (bind m (fun x => k))
  (at level 61, m at next level, right associativity) : sketch_scope.
Notation "m ;; k" := (bind m (fun _ => k))
  (at level 61, right associativity) : sketch_scope.
Local Open Scope sketch_scope.

Definition exec {A} (m : M A) (w : World) : World := snd (m w).
Definition eval {A} (m : M A) (w : World) : A := fst (m w).

(** A range-based [for] over a vector. *)
Fixpoint for_each {A} (l : list A) (body : A -> M unit) : M unit :=
  match l with
  | [] => ret tt
  | x :: rest => body x ;; for_each rest body
  end.

(** ** Text rendering *)

(** One uppercase hexadecimal digit, for a value below 16. *)
Definition hex_digit (d : N) : ascii :=
  if (d <? 10)%N then ascii_of_N (48 + d) else ascii_of_N (55 + d).

(** [sprintf(buf, "%02X", b)] for a [uint8_t] argument. *)
Definition sprintf_02X (b : byte) : string :=
  let n := Byte.to_N b in
  String (hex_digit (n / 16)) (String (hex_digit (n mod 16)) EmptyString).

Definition macToString (mac : MacAddr) : string :=
  sprintf_02X (mac0 mac) ++ ":" ++ sprintf_02X (mac1 mac) ++ ":" ++
  sprintf_02X (mac2 mac) ++ ":" ++ sprintf_02X (mac3 mac) ++ ":" ++
  sprintf_02X (mac4 mac) ++ ":" ++ sprintf_02X (mac5 mac).

(** The body of the UID loop in [loop]: the sketch appends a ["0"] itself
    for a byte below 0x10 and then appends the [%02X] rendering. *)
Fixpoint uidString_of (uid : list byte) (acc : string) : string :=
  match uid with
  | [] => acc
  | b :: rest =>
      let acc1 := if (Byte.to_N b <? 16)%N then acc ++ "0" else acc in
      uidString_of rest (acc1 ++ sprintf_02X b)
  end.

(** ** The sketch *)

Section Sketch.

Variable env : Env.

Definition millis : M Z := fun w =>
  (clock env (clock_reads w),
   mkWorld (lastPoll w) (prevStations w) (Serial w) (mfrc522_uid w) (bus w)
           (S (clock_reads w)) (radio_reads w) (picc_reads w)).

Definition esp_wifi_ap_get_sta_list : M (esp_err_t * wifi_sta_list_t) :=
  fun w =>
  (radio env (radio_reads w),
   mkWorld (lastPoll w) (prevStations w) (Serial w) (mfrc522_uid w) (bus w)
           (clock_reads w) (S (radio_reads w)) (picc_reads w)).

(** A write on [Serial]; the value is the [size_t] the call returns. *)
Definition Serial_call (c : SerialCall) : M Z := fun w =>
  (uart env (List.length (Serial w)),
   mkWorld (lastPoll w) (prevStations w) (Serial w ++ [c]) (mfrc522_uid w)
           (bus w) (clock_reads w) (radio_reads w) (picc_reads w)).

Definition bus_call (c : BusCall) : M unit := fun w =>
  (tt,
   mkWorld (lastPoll w) (prevStations w) (Serial w) (mfrc522_uid w)
           (bus w ++ [c]) (clock_reads w) (radio_reads w) (picc_reads w)).

Definition PICC_IsNewCardPresent : M bool := fun w =>
  (card_present (picc env (picc_reads w)),
   mkWorld (lastPoll w) (prevStations w) (Serial w) (mfrc522_uid w) (bus w)
           (clock_reads w) (radio_reads w) (S (picc_reads w))).

(** Reads the card that the last [PICC_IsNewCardPresent] saw; on success the
    reader object holds its UID. *)
Definition PICC_ReadCardSerial : M bool := fun w =>
  let f := picc env (pred (picc_reads w)) in
  if serial_read f then
    (true,
     mkWorld (lastPoll w) (prevStations w) (Serial w) (uid_bytes f) (bus w)
             (clock_reads w) (radio_reads w) (picc_reads w))
  else (false, w).

Definition get_prevStations : M (list string) := fun w => (prevStations w, w).
Definition get_lastPoll : M Z := fun w => (lastPoll w, w).
Definition get_uid : M (list byte) := fun w => (mfrc522_uid w, w).

Definition set_prevStations (v : list string) : M unit := fun w =>
  (tt,
   mkWorld (lastPoll w) v (Serial w) (mfrc522_uid w) (bus w)
           (clock_reads w) (radio_reads w) (picc_reads w)).

Definition set_lastPoll (t : Z) : M unit := fun w =>
  (tt,
   mkWorld t (prevStations w) (Serial w) (mfrc522_uid w) (bus w)
           (clock_reads w) (radio_reads w) (picc_reads w)).

Definition sendJson (doc : JsonDocument) : M unit :=
  let out := serializeJson doc in
  _ <- Serial_call (Serial_println out) ;;
  ret tt.

Definition getConnectedStationMACs : M (list string) :=
  r <- esp_wifi_ap_get_sta_list ;;
  let (err, sta_list) := r in
  if negb (err =? ESP_OK) then ret []
  else ret (map macToString sta_list).

(** The inner [for ... if (p == mac) { found = true; break; }] search. *)
Definition found_in (l : list string) (mac : string) : bool :=
  existsb (fun p => String.eqb p mac) l.

Definition wifi_doc (event mac : string) (ts : Z) : JsonDocument :=
  let doc := doc_set [] "type" (JString "wifi_event") in
  let doc := doc_set doc "event" (JString event) in
  let doc := doc_set doc "mac" (JString mac) in
  doc_set doc "ts" (JUInt ts).

Definition handleStationChanges : M unit :=
  current <- getConnectedStationMACs ;;
  for_each current (fun mac =>
    prev <- get_prevStations ;;
    let found := found_in prev mac in
    if negb found then
      ts <- millis ;;
      sendJson (wifi_doc "connected" mac ts)
    else ret tt) ;;
  prev <- get_prevStations ;;
  for_each prev (fun mac =>
    let found := found_in current mac in
    if negb found then
      ts <- millis ;;
      sendJson (wifi_doc "disconnected" mac ts)
    else ret tt) ;;
  set_prevStations current.

Definition rfid_doc (uidString : string) (ts : Z) : JsonDocument :=
  let doc := doc_set [] "type" (JString "rfid") in
  let doc := doc_set doc "uid" (JString uidString) in
  doc_set doc "ts" (JUInt ts).

Definition loop : M unit :=
  now <- millis ;;
  lp <- get_lastPoll ;;
  (if POLL_INTERVAL <=? ulong (now - lp) then
     handleStationChanges ;;
     set_lastPoll now
   else ret tt) ;;
  present <- PICC_IsNewCardPresent ;;
  ok <- (if present then PICC_ReadCardSerial else ret false) ;;
  (if ok then
     uid <- get_uid ;;
     let uidString := uidString_of uid "" in
     ts <- millis ;;
     sendJson (rfid_doc uidString ts) ;;
     _ <- Serial_call (Serial_print (Text "RFID read: ")) ;;
     _ <- Serial_call (Serial_println (Text uidString)) ;;
     bus_call PICC_HaltA ;;
     bus_call (delay 200)
   else ret tt) ;;
  bus_call (delay 10).

End Sketch.

(** ** Observing the host channel *)

(** The events of the design: what a record on the channel reports. *)
Inductive Event :=
| RadioJoined (peer : string) (timestamp : Z)
| RadioLeft (peer : string) (timestamp : Z)
| CardPresented (card : string) (timestamp : Z).

(** The record of an event, member by member, as the interface table of the
    design gives it. *)
Definition canonical_record (e : Event) : JsonDocument :=
  match e with
  | RadioJoined p ts =>
      [("type", JString "wifi_event"); ("event", JString "connected");
       ("mac", JString p); ("ts", JUInt ts)]
  | RadioLeft p ts =>
      [("type", JString "wifi_event"); ("event", JString "disconnected");
       ("mac", JString p); ("ts", JUInt ts)]
  | CardPresented c ts =>
      [("type", JString "rfid"); ("uid", JString c); ("ts", JUInt ts)]
  end.

(** Reading a record back: which event, if any, a document reports. *)
Definition event_of_doc (doc : JsonDocument) : option Event :=
  match doc_get doc "type", doc_get doc "ts" with
  | Some (JString ty), Some (JUInt ts) =>
      if String.eqb ty "wifi_event" then
        match doc_get doc "event", doc_get doc "mac" with
        | Some (JString ev), Some (JString mac) =>
            if String.eqb ev "connected" then Some (RadioJoined mac ts)
            else if String.eqb ev "disconnected" then Some (RadioLeft mac ts)
            else None
        | _, _ => None
        end
      else if String.eqb ty "rfid" then
        match doc_get doc "uid" with
        | Some (JString u) => Some (CardPresented u ts)
        | _ => None
        end
      else None
  | _, _ => None
  end.

Definition event_of_call (c : SerialCall) : option Event :=
  match c with
  | Serial_println (Json doc) => event_of_doc doc
  | _ => None
  end.

(** The events reported by a stretch of the channel log, oldest first. *)
Fixpoint events (log : list SerialCall) : list Event :=
  match log with
  | [] => []
  | c :: rest =>
      match event_of_call c with
      | Some e => e :: events rest
      | None => events rest
      end
  end.

(** The lines a stretch of the log puts on the wire: one per [println]. *)
Definition ends_line (c : SerialCall) : bool :=
  match c with
  | Serial_println _ => true
  | Serial_print _ => false
  end.

Definition lines_written (log : list SerialCall) : nat :=
  List.length (filter ends_line log).

Definition joined_peers (evs : list Event) : list string :=
  flat_map (fun e => match e with RadioJoined p _ => [p] | _ => [] end) evs.

Definition left_peers (evs : list Event) : list string :=
  flat_map (fun e => match e with RadioLeft p _ => [p] | _ => [] end) evs.

Definition cards (evs : list Event) : list string :=
  flat_map (fun e => match e with CardPresented c _ => [c] | _ => [] end) evs.

Definition is_wifi_event (e : Event) : bool :=
  match e with
  | RadioJoined _ _ | RadioLeft _ _ => true
  | CardPresented _ _ => false
  end.

(** What a run of [m] from [w] appends to the channel log. *)
Definition emitted {A} (m : M A) (w : World) : list SerialCall :=
  skipn (List.length (Serial w)) (Serial (exec m w)).

(** The snapshot the station poll works on when it starts in [w]. *)
Definition snapshot (env : Env) (w : World) : list string :=
  eval (getConnectedStationMACs env) w.

(** The membership history of one peer: [true] for a join, [false] for a
    leave, oldest first. *)
Definition transitions (p : string) (evs : list Event) : list bool :=
  flat_map (fun e =>
    match e with
    | RadioJoined q _ => if String.eqb q p then [true] else []
    | RadioLeft q _ => if String.eqb q p then [false] else []
    | CardPresented _ _ => []
    end) evs.

(** No two neighbours of the history are the same kind of transition. *)
Fixpoint alternating (h : list bool) : bool :=
  match h with
  | [] => true
  | a :: rest =>
      match rest with
      | [] => true
      | b :: _ => negb (Bool.eqb a b) && alternating rest
      end
  end.

(** [n] station polls in a row. *)
Fixpoint polls (env : Env) (n : nat) : M unit :=
  match n with
  | O => ret tt
  | S k => handleStationChanges env ;; polls env k
  end.

(** [n] iterations of the main loop. *)
Fixpoint loops (env : Env) (n : nat) : M unit :=
  match n with
  | O => ret tt
  | S k => loop env ;; loops env k
  end.

(** The sketch's globals as their declarations initialise them, with an
    idle channel. *)
Definition boot : World := mkWorld 0 [] [] [] [] 0 0 0.

Local Open Scope list_scope.

(** ** The output of the sketch, in closed form *)

(** What the driver's answer becomes in [getConnectedStationMACs]. *)
Definition stations_of (r : esp_err_t * wifi_sta_list_t) : list string :=
  if negb (fst r =? ESP_OK) then [] else map macToString (snd r).

(** The records one of the two reporting loops writes: one per kept
    element, stamped with successive clock readings from the [k]-th on. *)
Fixpoint wifi_lines (env : Env) (event : string) (keep : string -> bool)
    (l : list string) (k : nat) : list SerialCall :=
  match l with
  | [] => []
  | mac :: rest =>
      if keep mac then
        Serial_println (Json (wifi_doc event mac (clock env k)))
          :: wifi_lines env event keep rest (S k)
      else wifi_lines env event keep rest k
  end.

(** The world after [out] was written, one clock reading per call. *)
Definition advance (w : World) (out : list SerialCall) : World :=
  mkWorld (lastPoll w) (prevStations w) (Serial w ++ out) (mfrc522_uid w)
          (bus w) (clock_reads w + List.length out)%nat (radio_reads w)
          (picc_reads w).

Definition joined_lines (env : Env) (w : World) : list SerialCall :=
  wifi_lines env "connected" (fun m => negb (found_in (prevStations w) m))
    (snapshot env w) (clock_reads w).

Definition left_lines (env : Env) (w : World) : list SerialCall :=
  wifi_lines env "disconnected" (fun m => negb (found_in (snapshot env w) m))
    (prevStations w) (clock_reads w + List.length (joined_lines env w))%nat.

(** The call that writes the record of [e] as one line. *)
Definition record_line (e : Event) : SerialCall :=
  Serial_println (Json (canonical_record e)).

(** Events for the peers of [l], in order, stamped with successive clock
    readings from the [k]-th on. *)
Fixpoint stamp (env : Env) (mk : string -> Z -> Event) (l : list string)
    (k : nat) : list Event :=
  match l with
  | [] => []
  | p :: rest => mk p (clock env k) :: stamp env mk rest (S k)
  end.

(** The peers the two loops report, as the vectors they walk. *)
Definition joined_of (env : Env) (w : World) : list string :=
  filter (fun m => negb (found_in (prevStations w) m)) (snapshot env w).

Definition left_of (env : Env) (w : World) : list string :=
  filter (fun m => negb (found_in (snapshot env w) m)) (prevStations w).

Definition poll_events (env : Env) (w : World) : list Event :=
  stamp env RadioJoined (joined_of env w) (clock_reads w) ++
  stamp env RadioLeft (left_of env w)
    (clock_reads w + List.length (joined_of env w))%nat.

(** Whether the radio tick is due when the iteration starts in [w]:
    the test [now - lastPoll >= POLL_INTERVAL] on [unsigned long]. *)
Definition due (env : Env) (w : World) : bool :=
  POLL_INTERVAL <=? ulong (clock env (clock_reads w) - lastPoll w).

(** The world after the first [if] of [loop]. *)
Definition tick_world (env : Env) (w : World) : World :=
  let now := clock env (clock_reads w) in
  let w0 := exec (millis env) w in
  if due env w then
    exec (set_lastPoll now) (exec (handleStationChanges env) w0)
  else w0.

(** What the first [if] of [loop] writes. *)
Definition tick_calls (env : Env) (w : World) : list SerialCall :=
  if due env w then
    emitted (handleStationChanges env) (exec (millis env) w)
  else [].

(** Whether the reader yields a card in the iteration that polls it in
    [w]. *)
Definition card_ok (env : Env) (w : World) : bool :=
  card_present (picc env (picc_reads w)) &&
  serial_read (picc env (picc_reads w)).

(** What the card branch of [loop] writes when it starts in [w]. *)
Definition card_calls (env : Env) (w : World) : list SerialCall :=
  let uid := uidString_of (uid_bytes (picc env (picc_reads w))) "" in
  if card_ok env w then
    [record_line (CardPresented uid (clock env (clock_reads w)));
     Serial_print (Text "RFID read: ");
     Serial_println (Text uid)]
  else [].

(** The world after the card branch and the closing delay. *)
Definition card_world (env : Env) (w : World) : World :=
  let f := picc env (picc_reads w) in
  mkWorld (lastPoll w) (prevStations w) (Serial w ++ card_calls env w)
    (if card_ok env w then uid_bytes f else mfrc522_uid w)
    (bus w ++ (if card_ok env w then [PICC_HaltA; delay 200] else [])
           ++ [delay 10])
    (if card_ok env w then S (clock_reads w) else clock_reads w)
    (radio_reads w) (S (picc_reads w)).

(** ** Auxiliary notions *)

Definition hex_value (c : ascii) : N :=
  let n := N_of_ascii c in
  if (n <? 58)%N then (n - 48)%N else (n - 55)%N.

(** Reads back the two digits [sprintf_02X] writes. *)
Definition parse_02X (s : string) : option byte :=
  match s with
  | String hi (String lo EmptyString) =>
      Byte.of_N (16 * hex_value hi + hex_value lo)
  | _ => None
  end.

Definition is_wifi_record (c : SerialCall) : bool :=
  match event_of_call c with
  | Some e => is_wifi_event e
  | None => false
  end.

Definition is_card_record (c : SerialCall) : bool :=
  match event_of_call c with
  | Some (CardPresented _ _) => true
  | _ => false
  end.

(** The membership history of [p] on the channel agrees with the stored
    vector: it alternates, and its last entry says whether [p] is stored. *)
Definition tracked (p : string) (w : World) : Prop :=
  NoDup (prevStations w) /\
  alternating (transitions p (events (Serial w))) = true /\
  last (transitions p (events (Serial w))) false = found_in (prevStations w) p.

Definition low_bytes (uid : list byte) : nat :=
  List.length (filter (fun b => (Byte.to_N b <? 16)%N) uid).

(** ** Concrete peripherals and worlds *)

Definition macA : MacAddr := mkMac x02 x00 x00 x00 x00 x0a.
Definition macB : MacAddr := mkMac x02 x00 x00 x00 x00 x0b.
Definition macC : MacAddr := mkMac x02 x00 x00 x00 x00 x0c.

(** A clock that reads 1000 ms more at every call, a reader with no card,
    a UART that takes every write; the driver's answers are given. *)
Definition env_with (r : nat -> esp_err_t * wifi_sta_list_t) : Env :=
  mkEnv (fun k => 1000 * Z.of_nat k) r (fun _ => mkPicc false false [])
        (fun _ => 64).

(** The driver reports the same station twice, then nobody. *)
Definition env_dup : Env :=
  env_with (fun k => match k with
                     | O => (ESP_OK, [macA; macA])
                     | S _ => (ESP_OK, [])
                     end).

(** The driver sees station A come, go and come back. *)
Definition env_churn : Env :=
  env_with (fun k => if Nat.even k then (ESP_OK, [macA; macB])
                     else (ESP_OK, [macB])).

Definition env_BC : Env := env_with (fun _ => (ESP_OK, [macB; macC])).

(** The first query fails, the later ones report station A. *)
Definition env_outage : Env :=
  env_with (fun k => match k with
                     | O => (-1, [])
                     | S _ => (ESP_OK, [macA])
                     end).

(** A card with UID DE 0A BE EF lies on the reader; station A is
    associated. *)
Definition env_card : Env :=
  mkEnv (fun k => 1000 * Z.of_nat k) (fun _ => (ESP_OK, [macA]))
        (fun _ => mkPicc true true [xde; x0a; xbe; xef]) (fun _ => 64).

(** The UART takes no byte: every write returns 0. *)
Definition env_down : Env :=
  mkEnv (fun k => 1000 * Z.of_nat k) (fun _ => (ESP_OK, [macA]))
        (fun _ => mkPicc true true [xde; x0a; xbe; xef]) (fun _ => 0).

Definition world_A : World := mkWorld 0 [macToString macA] [] [] [] 0 0 0.

(** The world with A and B stored and nothing written yet. *)
Definition world_AB : World :=
  mkWorld 0 [macToString macA; macToString macB] [] [] [] 0 0 0.

(** The world in which the last tick was long ago: any iteration run from
    it with [env_card] finds the tick due. *)
Definition world_late : World := mkWorld 0 [] [] [] [] 3 0 0.

(** ** Further notions: text shapes, timestamps, worlds *)

Definition is_upper_hex (c : ascii) : bool :=
  let n := N_of_ascii c in
  ((48 <=? n) && (n <=? 57) || (65 <=? n) && (n <=? 70))%N.

Inductive CharClass := UpperHex | Colon | OtherChar.

Definition classify (c : ascii) : CharClass :=
  if is_upper_hex c then UpperHex
  else if Ascii.eqb c ":" then Colon
  else OtherChar.

(** What one pass of the UID loop appends for the byte [b]. *)
Definition uid_chunk (b : byte) : string :=
  ((if (Byte.to_N b <? 16)%N then "0" else "") ++ sprintf_02X b)%string.

(** Reads a UID string back: a chunk that starts with the digit 0 has three
    characters, any other chunk two. *)
Fixpoint parse_uid (s : string) : option (list byte) :=
  match s with
  | EmptyString => Some []
  | String _ EmptyString => None
  | String c0 (String c1 rest1) =>
      if Ascii.eqb c0 "0" then
        match rest1 with
        | EmptyString => None
        | String c2 rest2 =>
            match parse_02X (String c1 (String c2 EmptyString)),
                  parse_uid rest2 with
            | Some b, Some l => Some (b :: l)
            | _, _ => None
            end
        end
      else
        match parse_02X (String c0 (String c1 EmptyString)),
              parse_uid rest1 with
        | Some b, Some l => Some (b :: l)
        | _, _ => None
        end
  end.

Definition event_ts (e : Event) : Z :=
  match e with
  | RadioJoined _ ts | RadioLeft _ ts | CardPresented _ ts => ts
  end.

Definition timestamps (evs : list Event) : list Z := map event_ts evs.

Fixpoint nondecreasing (l : list Z) : bool :=
  match l with
  | [] => true
  | a :: rest =>
      match rest with
      | [] => true
      | b :: _ => (a <=? b) && nondecreasing rest
      end
  end.

Definition is_join (e : Event) : bool :=
  match e with
  | RadioJoined _ _ => true
  | _ => false
  end.

(** The clock has wrapped: it reads 1700 while the last tick was taken at
    500 ms before the wrap. *)
Definition env_wrapped : Env :=
  mkEnv (fun _ => 1700) (fun _ => (ESP_OK, [macA]))
        (fun _ => mkPicc false false []) (fun _ => 64).

Definition world_before_wrap : World :=
  mkWorld (2 ^ 32 - 500) [] [] [] [] 0 0 0.

(** Station A comes and goes every other answer while a card lies on the
    reader. *)
Definition env_busy : Env :=
  mkEnv (fun k => 1000 * Z.of_nat k)
        (fun k => if Nat.even k then (ESP_OK, [macA; macB])
                  else (ESP_OK, [macB]))
        (fun _ => mkPicc true true [xde; x0a; xbe; xef]) (fun _ => 64).

(** The stored vector of [world_AB], in the other order. *)
Definition world_BA : World :=
  mkWorld 0 [macToString macB; macToString macA] [] [] [] 0 0 0.

(** ** Rendering lemmas *)

Lemma parse_sprintf_02X (b : byte) : parse_02X (sprintf_02X b) = Some b.
Proof. destruct b; vm_compute; reflexivity. Qed.

Lemma sprintf_02X_inj (a b : byte) : sprintf_02X a = sprintf_02X b -> a = b.
Proof.
  intros H.
  assert (E : Some a = Some b).
  { rewrite <- (parse_sprintf_02X a), <- (parse_sprintf_02X b), H.
    reflexivity. }
  now inversion E.
Qed.

Lemma macToString_inj (m n : MacAddr) : macToString m = macToString n -> m = n.
Proof.
  destruct m as [a0 a1 a2 a3 a4 a5], n as [b0 b1 b2 b3 b4 b5].
  unfold macToString; cbn [mac0 mac1 mac2 mac3 mac4 mac5].
  intros H.
  assert (D : forall b, sprintf_02X b =
    String (hex_digit (Byte.to_N b / 16))
      (String (hex_digit (Byte.to_N b mod 16)) EmptyString)) by reflexivity.
  rewrite !D in H. cbn [String.append] in H.
  injection H as H00 H01 H10 H11 H20 H21 H30 H31 H40 H41 H50 H51.
  f_equal; apply sprintf_02X_inj; rewrite !D; congruence.
Qed.

Lemma macToString_length (m : MacAddr) : String.length (macToString m) = 17%nat.
Proof. reflexivity. Qed.

Lemma found_in_true (l : list string) (mac : string) :
  found_in l mac = true <-> In mac l.
Proof.
  unfold found_in. rewrite existsb_exists. split.
  - intros [x [Hx E]]. apply String.eqb_eq in E. now subst.
  - intros H. exists mac. split; [assumption | apply String.eqb_refl].
Qed.

Lemma found_in_false (l : list string) (mac : string) :
  found_in l mac = false <-> ~ In mac l.
Proof.
  rewrite <- found_in_true. destruct (found_in l mac); split; intros H;
    congruence.
Qed.

(** ** What one station poll does to the world *)

Section Runs.

Variable env : Env.

Lemma advance_nil (w : World) : advance w [] = w.
Proof.
  destruct w; unfold advance; cbn. now rewrite app_nil_r, Nat.add_0_r.
Qed.

Lemma advance_cons (w : World) (c : SerialCall) (out : list SerialCall) :
  advance (advance w [c]) out = advance w (c :: out).
Proof.
  unfold advance; cbn. rewrite <- app_assoc. cbn.
  f_equal. lia.
Qed.

Lemma report_step (event mac : string) (w : World) :
  (ts <- millis env ;; sendJson env (wifi_doc event mac ts)) w =
  (tt, advance w
         [Serial_println (Json (wifi_doc event mac (clock env (clock_reads w))))]).
Proof.
  unfold bind, millis, sendJson, Serial_call, serializeJson, ret, advance.
  cbn. repeat f_equal. lia.
Qed.

(** The first loop of [handleStationChanges]: it searches the stored vector,
    which the loop itself never writes. *)
Lemma joined_loop (l : list string) : forall w,
  for_each l (fun mac =>
    prev <- get_prevStations ;;
    let found := found_in prev mac in
    if negb found then
      ts <- millis env ;; sendJson env (wifi_doc "connected" mac ts)
    else ret tt) w =
  (tt, advance w (wifi_lines env "connected"
                    (fun m => negb (found_in (prevStations w) m)) l
                    (clock_reads w))).
Proof.
  induction l as [| mac rest IH]; intros w.
  - cbn. now rewrite advance_nil.
  - cbn [for_each wifi_lines]. unfold bind at 1. unfold bind at 1.
    unfold get_prevStations at 1. cbv zeta.
    destruct (negb (found_in (prevStations w) mac)) eqn:F.
    + rewrite report_step, IH, advance_cons.
      cbn [advance prevStations clock_reads List.length].
      rewrite Nat.add_1_r. reflexivity.
    + unfold ret at 1. apply IH.
Qed.

(** The second loop: the snapshot it searches is a local. *)
Lemma left_loop (current l : list string) : forall w,
  for_each l (fun mac =>
    let found := found_in current mac in
    if negb found then
      ts <- millis env ;; sendJson env (wifi_doc "disconnected" mac ts)
    else ret tt) w =
  (tt, advance w (wifi_lines env "disconnected"
                    (fun m => negb (found_in current m)) l (clock_reads w))).
Proof.
  induction l as [| mac rest IH]; intros w.
  - cbn. now rewrite advance_nil.
  - cbn [for_each wifi_lines]. unfold bind at 1. cbv zeta.
    destruct (negb (found_in current mac)) eqn:F.
    + rewrite report_step, IH, advance_cons.
      cbn [advance clock_reads List.length].
      rewrite Nat.add_1_r. reflexivity.
    + unfold ret at 1. apply IH.
Qed.

Lemma snapshot_eq (w : World) :
  snapshot env w = stations_of (radio env (radio_reads w)).
Proof.
  unfold snapshot, eval, getConnectedStationMACs, bind,
    esp_wifi_ap_get_sta_list, stations_of.
  destruct (radio env (radio_reads w)) as [err l]. cbn.
  now destruct (err =? ESP_OK).
Qed.

Lemma handleStationChanges_run (w : World) :
  handleStationChanges env w =
  (tt, mkWorld (lastPoll w) (snapshot env w)
         (Serial w ++ joined_lines env w ++ left_lines env w)
         (mfrc522_uid w) (bus w)
         (clock_reads w + List.length (joined_lines env w ++ left_lines env w))%nat
         (S (radio_reads w)) (picc_reads w)).
Proof.
  unfold left_lines, joined_lines. rewrite snapshot_eq.
  unfold handleStationChanges, getConnectedStationMACs.
  unfold bind at 1. unfold bind at 1. unfold esp_wifi_ap_get_sta_list at 1.
  unfold stations_of.
  destruct (radio env (radio_reads w)) as [err l]. cbn [fst snd].
  set (w1 := mkWorld _ _ _ _ _ _ (S (radio_reads w)) _).
  assert (R : (if negb (err =? ESP_OK) then ret []
               else ret (map macToString l)) w1 =
              ((if negb (err =? ESP_OK) then [] else map macToString l), w1)).
  { now destruct (negb (err =? ESP_OK)). }
  rewrite R. clear R.
  set (current := if negb (err =? ESP_OK) then [] else map macToString l).
  unfold bind at 1. rewrite joined_loop.
  unfold bind at 1. unfold get_prevStations at 1.
  unfold bind at 1. rewrite left_loop.
  unfold set_prevStations, advance. cbn [lastPoll prevStations Serial
    mfrc522_uid bus clock_reads radio_reads picc_reads w1].
  rewrite <- app_assoc, length_app, Nat.add_assoc. reflexivity.
Qed.

End Runs.

(** ** From channel calls to events *)

Lemma event_of_canonical_record (e : Event) :
  event_of_doc (canonical_record e) = Some e.
Proof. destruct e; reflexivity. Qed.

Lemma events_app (l1 l2 : list SerialCall) :
  events (l1 ++ l2) = events l1 ++ events l2.
Proof.
  induction l1 as [| c l1 IH]; cbn; [reflexivity |].
  destruct (event_of_call c); cbn; now rewrite IH.
Qed.

Lemma events_record_lines (evs : list Event) :
  events (map record_line evs) = evs.
Proof.
  induction evs as [| e evs IH]; cbn [map events]; [reflexivity |].
  unfold record_line at 1. cbn [event_of_call].
  now rewrite event_of_canonical_record, IH.
Qed.

Lemma lines_written_record_lines (evs : list Event) :
  lines_written (map record_line evs) = List.length evs.
Proof.
  unfold lines_written. induction evs as [| e evs IH]; cbn; [reflexivity |].
  now rewrite IH.
Qed.

Lemma exec_seq {A B} (m : M A) (k : M B) (w : World) :
  exec (m ;; k) w = exec k (exec m w).
Proof. unfold exec, bind. now destruct (m w). Qed.

Lemma emitted_app {A} (m : M A) (w : World) (out : list SerialCall) :
  Serial (exec m w) = Serial w ++ out -> emitted m w = out.
Proof.
  intros H. unfold emitted. rewrite H.
  rewrite skipn_app, skipn_all, Nat.sub_diag. reflexivity.
Qed.

Section Observations.

Variable env : Env.

Lemma wifi_lines_connected (keep : string -> bool) (l : list string) :
  forall k, wifi_lines env "connected" keep l k =
            map record_line (stamp env RadioJoined (filter keep l) k).
Proof.
  induction l as [| p l IH]; intros k; cbn [wifi_lines filter];
    [reflexivity |].
  destruct (keep p); [| apply IH].
  cbn [stamp map]. now rewrite IH.
Qed.

Lemma wifi_lines_disconnected (keep : string -> bool) (l : list string) :
  forall k, wifi_lines env "disconnected" keep l k =
            map record_line (stamp env RadioLeft (filter keep l) k).
Proof.
  induction l as [| p l IH]; intros k; cbn [wifi_lines filter];
    [reflexivity |].
  destruct (keep p); [| apply IH].
  cbn [stamp map]. now rewrite IH.
Qed.

Lemma stamp_length (mk : string -> Z -> Event) (l : list string) :
  forall k, List.length (stamp env mk l k) = List.length l.
Proof. induction l; intros k; cbn; [reflexivity | now rewrite IHl]. Qed.

Lemma joined_peers_app (a b : list Event) :
  joined_peers (a ++ b) = joined_peers a ++ joined_peers b.
Proof. apply flat_map_app. Qed.

Lemma left_peers_app (a b : list Event) :
  left_peers (a ++ b) = left_peers a ++ left_peers b.
Proof. apply flat_map_app. Qed.

Lemma joined_peers_stamp_joined (l : list string) :
  forall k, joined_peers (stamp env RadioJoined l k) = l.
Proof. induction l; intros k; cbn; [reflexivity | now rewrite IHl]. Qed.

Lemma joined_peers_stamp_left (l : list string) :
  forall k, joined_peers (stamp env RadioLeft l k) = [].
Proof. induction l; intros k; cbn; [reflexivity | now rewrite IHl]. Qed.

Lemma left_peers_stamp_left (l : list string) :
  forall k, left_peers (stamp env RadioLeft l k) = l.
Proof. induction l; intros k; cbn; [reflexivity | now rewrite IHl]. Qed.

Lemma left_peers_stamp_joined (l : list string) :
  forall k, left_peers (stamp env RadioJoined l k) = [].
Proof. induction l; intros k; cbn; [reflexivity | now rewrite IHl]. Qed.

Lemma poll_emitted (w : World) :
  emitted (handleStationChanges env) w = map record_line (poll_events env w).
Proof.
  apply emitted_app. unfold exec. rewrite handleStationChanges_run.
  cbn [snd Serial]. f_equal. unfold poll_events, left_lines, joined_lines, left_of, joined_of.
  rewrite map_app, !wifi_lines_connected, wifi_lines_disconnected.
  rewrite !length_map, !stamp_length. reflexivity.
Qed.

Lemma poll_serial (w : World) :
  Serial (exec (handleStationChanges env) w) =
  Serial w ++ emitted (handleStationChanges env) w.
Proof.
  rewrite poll_emitted. unfold exec. rewrite handleStationChanges_run.
  cbn [snd Serial]. f_equal. unfold poll_events, left_lines, joined_lines, left_of, joined_of.
  rewrite map_app, !wifi_lines_connected, wifi_lines_disconnected.
  rewrite !length_map, !stamp_length. reflexivity.
Qed.

Lemma poll_events_of (w : World) :
  events (emitted (handleStationChanges env) w) = poll_events env w.
Proof. rewrite poll_emitted. apply events_record_lines. Qed.

Lemma poll_joined_peers (w : World) :
  joined_peers (events (emitted (handleStationChanges env) w)) = joined_of env w.
Proof.
  rewrite poll_events_of. unfold poll_events.
  rewrite joined_peers_app, joined_peers_stamp_joined,
    joined_peers_stamp_left. apply app_nil_r.
Qed.

Lemma poll_left_peers (w : World) :
  left_peers (events (emitted (handleStationChanges env) w)) = left_of env w.
Proof.
  rewrite poll_events_of. unfold poll_events.
  rewrite left_peers_app, left_peers_stamp_joined, left_peers_stamp_left.
  reflexivity.
Qed.

Lemma poll_prevStations (w : World) :
  prevStations (exec (handleStationChanges env) w) = snapshot env w.
Proof. unfold exec. now rewrite handleStationChanges_run. Qed.

Lemma in_joined_of (w : World) (p : string) :
  In p (joined_of env w) <-> In p (snapshot env w) /\ ~ In p (prevStations w).
Proof.
  unfold joined_of. rewrite filter_In, negb_true_iff, found_in_false.
  reflexivity.
Qed.

Lemma in_left_of (w : World) (p : string) :
  In p (left_of env w) <-> In p (prevStations w) /\ ~ In p (snapshot env w).
Proof.
  unfold left_of. rewrite filter_In, negb_true_iff, found_in_false.
  reflexivity.
Qed.

End Observations.

(** ** The station poll *)

(** C1: for every stored vector and every snapshot, the peers with a
    "connected" record in the poll's output are exactly those of the
    snapshot that are not stored, the peers with a "disconnected" record are
    exactly the stored ones missing from the snapshot, the poll only appends
    to the channel, and afterwards the stored vector is the snapshot. *)
Theorem poll_reports_set_differences (env : Env) (w : World) :
  let out := emitted (handleStationChanges env) w in
  let w' := exec (handleStationChanges env) w in
  (forall p, In p (joined_peers (events out)) <->
             In p (snapshot env w) /\ ~ In p (prevStations w)) /\
  (forall p, In p (left_peers (events out)) <->
             In p (prevStations w) /\ ~ In p (snapshot env w)) /\
  Serial w' = Serial w ++ out /\
  prevStations w' = snapshot env w.
Proof.
  cbv zeta. split; [| split; [| split]].
  - intros p. rewrite poll_joined_peers. apply in_joined_of.
  - intros p. rewrite poll_left_peers. apply in_left_of.
  - apply poll_serial.
  - apply poll_prevStations.
Qed.

(** ** Counting reports per peer *)

Lemma count_occ_filter (keep : string -> bool) (l : list string) (p : string) :
  count_occ string_dec (filter keep l) p =
  if keep p then count_occ string_dec l p else 0%nat.
Proof.
  induction l as [| q l IH]; cbn [filter count_occ].
  - now destruct (keep p).
  - destruct (keep q) eqn:K; cbn [count_occ];
      destruct (string_dec q p) as [-> | N]; rewrite IH.
    + now rewrite K.
    + reflexivity.
    + now rewrite K.
    + reflexivity.
Qed.

Lemma transitions_app (p : string) (a b : list Event) :
  transitions p (a ++ b) = transitions p a ++ transitions p b.
Proof. apply flat_map_app. Qed.

Lemma transitions_cons (p : string) (e : Event) (r : list Event) :
  transitions p (e :: r) = transitions p [e] ++ transitions p r.
Proof. apply (transitions_app p [e] r). Qed.

Lemma transitions_stamp_joined (env : Env) (p : string) (l : list string) :
  forall k, transitions p (stamp env RadioJoined l k) =
            repeat true (count_occ string_dec l p).
Proof.
  induction l as [| q l IH]; intros k; [reflexivity |].
  cbn [stamp count_occ]. rewrite transitions_cons, IH.
  cbn [transitions flat_map]. rewrite app_nil_r.
  destruct (string_dec q p) as [-> | N].
  - now rewrite String.eqb_refl.
  - apply String.eqb_neq in N. now rewrite N.
Qed.

Lemma transitions_stamp_left (env : Env) (p : string) (l : list string) :
  forall k, transitions p (stamp env RadioLeft l k) =
            repeat false (count_occ string_dec l p).
Proof.
  induction l as [| q l IH]; intros k; [reflexivity |].
  cbn [stamp count_occ]. rewrite transitions_cons, IH.
  cbn [transitions flat_map]. rewrite app_nil_r.
  destruct (string_dec q p) as [-> | N].
  - now rewrite String.eqb_refl.
  - apply String.eqb_neq in N. now rewrite N.
Qed.

Lemma count_occ_joined_peers (env : Env) (w : World) (p : string) :
  count_occ string_dec
    (joined_peers (events (emitted (handleStationChanges env) w))) p =
  if found_in (prevStations w) p then 0%nat
  else count_occ string_dec (snapshot env w) p.
Proof.
  rewrite poll_joined_peers. unfold joined_of. rewrite count_occ_filter.
  now destruct (found_in (prevStations w) p).
Qed.

Lemma count_occ_left_peers (env : Env) (w : World) (p : string) :
  count_occ string_dec
    (left_peers (events (emitted (handleStationChanges env) w))) p =
  if found_in (snapshot env w) p then 0%nat
  else count_occ string_dec (prevStations w) p.
Proof.
  rewrite poll_left_peers. unfold left_of. rewrite count_occ_filter.
  now destruct (found_in (snapshot env w) p).
Qed.

(** C3, as the code has it: the poll does not deduplicate.  A peer gets one
    "connected" record per occurrence in the snapshot when it is not stored
    (none when it is), the stored vector becomes the snapshot as reported,
    repetitions included, and a stored peer missing from the snapshot gets
    one "disconnected" record per stored occurrence. *)
Theorem poll_reports_every_occurrence (env : Env) (w : World) (p : string) :
  let out := events (emitted (handleStationChanges env) w) in
  count_occ string_dec (joined_peers out) p =
    (if found_in (prevStations w) p then 0%nat
     else count_occ string_dec (snapshot env w) p) /\
  count_occ string_dec (left_peers out) p =
    (if found_in (snapshot env w) p then 0%nat
     else count_occ string_dec (prevStations w) p) /\
  prevStations (exec (handleStationChanges env) w) = snapshot env w.
Proof.
  cbv zeta. split; [| split].
  - apply count_occ_joined_peers.
  - apply count_occ_left_peers.
  - apply poll_prevStations.
Qed.

(** C3 fails on the code: a snapshot that holds one peer twice yields two
    "connected" records for it in one poll, the stored vector keeps both
    copies, and the next poll, on an empty snapshot, writes two
    "disconnected" records for it. *)
Lemma poll_duplicate_not_merged :
  joined_peers (events (emitted (handleStationChanges env_dup) boot)) =
    ["02:00:00:00:00:0A"; "02:00:00:00:00:0A"]%string /\
  prevStations (exec (handleStationChanges env_dup) boot) =
    ["02:00:00:00:00:0A"; "02:00:00:00:00:0A"]%string /\
  left_peers (events (emitted (handleStationChanges env_dup)
                        (exec (handleStationChanges env_dup) boot))) =
    ["02:00:00:00:00:0A"; "02:00:00:00:00:0A"]%string.
Proof. repeat split; vm_compute; reflexivity. Qed.

(** ** Alternation of joins and leaves *)

Lemma alternating_snoc (h : list bool) (b : bool) :
  alternating (h ++ [b]) =
  alternating h && negb (Bool.eqb (last h (negb b)) b).
Proof.
  induction h as [| a h IH].
  - now destruct b.
  - destruct h as [| c h].
    + now destruct a, b.
    + change (alternating ((a :: c :: h) ++ [b]))
        with (negb (Bool.eqb a c) && alternating ((c :: h) ++ [b])).
      rewrite IH.
      change (alternating (a :: c :: h))
        with (negb (Bool.eqb a c) && alternating (c :: h)).
      change (last (a :: c :: h) (negb b)) with (last (c :: h) (negb b)).
      now rewrite andb_assoc.
Qed.

Lemma last_default (h : list bool) (d : bool) :
  last h false = true -> last h d = true.
Proof.
  induction h as [| a h IH]; [discriminate |].
  destruct h as [| c h]; [trivial |].
  exact IH.
Qed.

Lemma count_occ_NoDup_in (l : list string) (p : string) :
  NoDup l -> count_occ string_dec l p = if found_in l p then 1%nat else 0%nat.
Proof.
  intros ND. destruct (found_in l p) eqn:F.
  - apply found_in_true in F.
    apply (NoDup_count_occ' string_dec); assumption.
  - apply found_in_false in F. now apply count_occ_not_In.
Qed.

Lemma tracked_boot (p : string) : tracked p boot.
Proof. repeat split. constructor. Qed.

Lemma tracked_poll (env : Env) (p : string) (w : World) :
  NoDup (snapshot env w) -> tracked p w ->
  tracked p (exec (handleStationChanges env) w).
Proof.
  intros NDs (NDp & Alt & Last). unfold tracked.
  rewrite poll_prevStations, poll_serial, events_app, poll_events_of.
  split; [assumption |].
  rewrite transitions_app. unfold poll_events.
  rewrite transitions_app, transitions_stamp_joined, transitions_stamp_left.
  unfold joined_of, left_of. rewrite !count_occ_filter.
  rewrite (count_occ_NoDup_in _ p NDs), (count_occ_NoDup_in _ p NDp).
  set (h := transitions p (events (Serial w))) in *.
  destruct (found_in (prevStations w) p) eqn:Fp;
    destruct (found_in (snapshot env w) p) eqn:Fs; cbn [negb repeat app].
  - rewrite app_nil_r. now split.
  - rewrite alternating_snoc, last_last, Alt.
    rewrite (last_default h _ Last). now split.
  - rewrite alternating_snoc, last_last, Alt. cbn [negb].
    rewrite Last. now split.
  - rewrite app_nil_r. now split.
Qed.

Lemma NoDup_stations_of (r : esp_err_t * wifi_sta_list_t) :
  NoDup (snd r) -> NoDup (stations_of r).
Proof.
  intros ND. unfold stations_of.
  destruct (negb (fst r =? ESP_OK)); [constructor |].
  apply Finite.Injective_map_NoDup; [| assumption].
  intros m n. apply macToString_inj.
Qed.

Lemma tracked_polls (env : Env) (p : string) (n : nat) :
  (forall k, NoDup (snd (radio env k))) ->
  forall w, tracked p w -> tracked p (exec (polls env n) w).
Proof.
  intros ND. induction n as [| n IH]; intros w T; [exact T |].
  cbn [polls]. rewrite exec_seq.
  apply IH, tracked_poll; [| assumption].
  rewrite snapshot_eq. apply NoDup_stations_of, ND.
Qed.

(** C2, as the code has it: when no answer of the driver lists a station
    twice, then over any number of polls from the empty stored vector the
    "connected" and "disconnected" records of every peer alternate. *)
Theorem polls_alternate_per_peer (env : Env) (n : nat) (p : string) :
  (forall k, NoDup (snd (radio env k))) ->
  alternating (transitions p (events (Serial (exec (polls env n) boot))))
  = true.
Proof.
  intros ND. apply (tracked_polls env p n ND boot (tracked_boot p)).
Qed.

(** C2 fails on the code: one poll from the empty stored vector, on a
    snapshot that lists a station twice, writes two "connected" records for
    it with no "disconnected" record between them. *)
Lemma polls_join_twice_in_a_row :
  events (Serial (exec (polls env_dup 1) boot)) =
    [RadioJoined "02:00:00:00:00:0A" 0; RadioJoined "02:00:00:00:00:0A" 1000]
  /\ alternating (transitions "02:00:00:00:00:0A"
                    (events (Serial (exec (polls env_dup 1) boot)))) = false.
Proof. split; vm_compute; reflexivity. Qed.

Lemma polls_alternate_per_peer_witness :
  alternating (transitions "02:00:00:00:00:0A"
                 (events (Serial (exec (polls env_churn 3) boot)))) = true.
Proof.
  apply (polls_alternate_per_peer env_churn 3 "02:00:00:00:00:0A").
  intros k. cbn. destruct (Nat.even k); cbn.
  - repeat constructor; cbn; intuition discriminate.
  - repeat constructor; cbn; intuition.
Defined.

(** ** The worked example: stored {A,B}, snapshot {B,C} *)

Lemma macToString_eqb_neq (m n : MacAddr) :
  m <> n -> String.eqb (macToString m) (macToString n) = false.
Proof.
  intros N. apply String.eqb_neq. intros E. apply N.
  now apply macToString_inj.
Qed.

(** C9, as the code has it: with A and B stored (in either order) and a
    snapshot of B and C (in either order), the poll writes the "connected"
    record of C first and the "disconnected" record of A second, and
    nothing for B. *)
Theorem poll_AB_then_BC (env : Env) (w : World) (a b c : MacAddr)
    (l : wifi_sta_list_t) :
  a <> b -> a <> c -> b <> c ->
  Permutation (prevStations w) [macToString a; macToString b] ->
  radio env (radio_reads w) = (ESP_OK, l) ->
  Permutation l [b; c] ->
  events (emitted (handleStationChanges env) w) =
    [RadioJoined (macToString c) (clock env (clock_reads w));
     RadioLeft (macToString a) (clock env (S (clock_reads w)))].
Proof.
  intros Hab Hac Hbc Pp Hr Pl.
  pose proof (macToString_eqb_neq _ _ Hab) as E1.
  pose proof (macToString_eqb_neq _ _ Hac) as E2.
  pose proof (macToString_eqb_neq _ _ Hbc) as E3.
  pose proof (macToString_eqb_neq _ _ (not_eq_sym Hab)) as E4.
  pose proof (macToString_eqb_neq _ _ (not_eq_sym Hac)) as E5.
  pose proof (macToString_eqb_neq _ _ (not_eq_sym Hbc)) as E6.
  rewrite poll_events_of. unfold poll_events, joined_of, left_of.
  rewrite snapshot_eq, Hr. unfold stations_of. cbn [fst snd].
  change (negb (ESP_OK =? ESP_OK)) with false. cbv iota.
  apply Permutation_sym, Permutation_length_2_inv in Pp, Pl.
  destruct Pp as [-> | ->], Pl as [-> | ->];
    unfold found_in; cbn [map filter existsb];
    rewrite ?String.eqb_refl, ?E1, ?E2, ?E3, ?E4, ?E5, ?E6;
    cbn [orb negb filter List.length stamp app];
    rewrite ?Nat.add_1_r; reflexivity.
Qed.

Lemma poll_AB_then_BC_witness :
  events (emitted (handleStationChanges env_BC) world_AB) =
    [RadioJoined (macToString macC) (clock env_BC (clock_reads world_AB));
     RadioLeft (macToString macA) (clock env_BC (S (clock_reads world_AB)))].
Proof.
  apply (poll_AB_then_BC env_BC world_AB macA macB macC [macB; macC]).
  - discriminate.
  - discriminate.
  - discriminate.
  - apply Permutation_refl.
  - reflexivity.
  - apply Permutation_refl.
Defined.

(** C9 fails on the code as to the order: on stored {A,B} and snapshot
    {B,C} the record of the join of C is written before that of the leave
    of A. *)
Lemma poll_join_of_C_precedes_leave_of_A :
  events (emitted (handleStationChanges env_BC) world_AB) =
    [RadioJoined "02:00:00:00:00:0C" 0; RadioLeft "02:00:00:00:00:0A" 1000]
  /\ events (emitted (handleStationChanges env_BC) world_AB) <>
    [RadioLeft "02:00:00:00:00:0A" 0; RadioJoined "02:00:00:00:00:0C" 1000].
Proof. split; [vm_compute; reflexivity | vm_compute; discriminate]. Qed.

(** ** A failed driver query *)

Lemma filter_keep_all (l : list string) :
  filter (fun m => negb (found_in [] m)) l = l.
Proof. induction l; cbn; [reflexivity | now f_equal]. Qed.

Lemma snapshot_failed (env : Env) (w : World) :
  fst (radio env (radio_reads w)) <> ESP_OK -> snapshot env w = [].
Proof.
  intros F. rewrite snapshot_eq. unfold stations_of.
  apply Z.eqb_neq in F. now rewrite F.
Qed.

(** C7: when the driver query fails, the poll works on the empty snapshot:
    it writes a "disconnected" record for every stored peer and no
    "connected" record, and stores the empty vector; if the next query
    succeeds, every previously stored peer in its snapshot gets a
    "connected" record again. *)
Theorem poll_on_failed_query (env : Env) (w : World) :
  fst (radio env (radio_reads w)) <> ESP_OK ->
  let out := events (emitted (handleStationChanges env) w) in
  let w' := exec (handleStationChanges env) w in
  snapshot env w = [] /\
  left_peers out = prevStations w /\
  joined_peers out = [] /\
  prevStations w' = [] /\
  forall p, In p (prevStations w) ->
            fst (radio env (radio_reads w')) = ESP_OK ->
            In p (snapshot env w') ->
            In p (joined_peers
                    (events (emitted (handleStationChanges env) w'))).
Proof.
  intros F. cbv zeta. pose proof (snapshot_failed env w F) as S0.
  split; [exact S0 |]. split; [| split; [| split]].
  - rewrite poll_left_peers. unfold left_of. rewrite S0.
    apply filter_keep_all.
  - rewrite poll_joined_peers. unfold joined_of. now rewrite S0.
  - now rewrite poll_prevStations.
  - intros p _ _ Hin. rewrite poll_joined_peers. unfold joined_of.
    rewrite poll_prevStations, S0, filter_keep_all. exact Hin.
Qed.

Lemma poll_on_failed_query_witness :
  let out := events (emitted (handleStationChanges env_outage) world_A) in
  let w' := exec (handleStationChanges env_outage) world_A in
  snapshot env_outage world_A = [] /\
  left_peers out = prevStations world_A /\
  joined_peers out = [] /\
  prevStations w' = [] /\
  forall p, In p (prevStations world_A) ->
            fst (radio env_outage (radio_reads w')) = ESP_OK ->
            In p (snapshot env_outage w') ->
            In p (joined_peers
                    (events (emitted (handleStationChanges env_outage) w'))).
Proof.
  apply (poll_on_failed_query env_outage world_A).
  cbn. discriminate.
Defined.

(** ** One iteration of the main loop *)

Lemma tick_run (env : Env) (w : World) :
  (if POLL_INTERVAL <=? ulong (clock env (clock_reads w) - lastPoll w) then
     handleStationChanges env ;; set_lastPoll (clock env (clock_reads w))
   else ret tt) (exec (millis env) w) = (tt, tick_world env w).
Proof.
  unfold tick_world, due.
  destruct (POLL_INTERVAL <=? ulong (clock env (clock_reads w) - lastPoll w)).
  - unfold bind, exec. rewrite !handleStationChanges_run. reflexivity.
  - reflexivity.
Qed.

Lemma card_run (env : Env) (w : World) :
  (present <- PICC_IsNewCardPresent env ;;
   ok <- (if present then PICC_ReadCardSerial env else ret false) ;;
   (if ok then
      uid <- get_uid ;;
      let uidString := uidString_of uid "" in
      ts <- millis env ;;
      sendJson env (rfid_doc uidString ts) ;;
      _ <- Serial_call env (Serial_print (Text "RFID read: ")) ;;
      _ <- Serial_call env (Serial_println (Text uidString)) ;;
      bus_call PICC_HaltA ;;
      bus_call (delay 200)
    else ret tt) ;;
   bus_call (delay 10)) w = (tt, card_world env w).
Proof.
  unfold card_world, card_calls, card_ok.
  unfold bind at 1. unfold PICC_IsNewCardPresent at 1.
  destruct (card_present (picc env (picc_reads w))) eqn:P.
  - unfold bind at 1. unfold PICC_ReadCardSerial at 1. cbn [picc_reads pred].
    destruct (serial_read (picc env (picc_reads w))) eqn:R.
    + cbn. unfold bus_call. cbn. rewrite <- !app_assoc. reflexivity.
    + cbn. unfold bus_call. cbn. rewrite app_nil_r. reflexivity.
  - cbn. unfold bus_call. cbn. rewrite app_nil_r. reflexivity.
Qed.

Lemma loop_run (env : Env) (w : World) :
  exec (loop env) w = card_world env (tick_world env w).
Proof.
  unfold exec at 1, loop.
  unfold bind at 1. unfold millis at 1.
  unfold bind at 1. unfold get_lastPoll at 1. cbn [lastPoll].
  unfold bind at 1.
  pose proof (tick_run env w) as T. unfold exec at 1, millis at 1 in T.
  cbn [snd] in T. rewrite T.
  pose proof (card_run env (tick_world env w)) as C. cbv zeta in C.
  rewrite C. reflexivity.
Qed.

Lemma tick_world_serial (env : Env) (w : World) :
  Serial (tick_world env w) = Serial w ++ tick_calls env w.
Proof.
  unfold tick_world, tick_calls. destruct (due env w).
  - change (Serial (exec (set_lastPoll ?t) ?v)) with (Serial v).
    now rewrite poll_serial.
  - cbn. now rewrite app_nil_r.
Qed.

Lemma loop_serial (env : Env) (w : World) :
  Serial (exec (loop env) w) =
  Serial w ++ tick_calls env w ++ card_calls env (tick_world env w).
Proof.
  rewrite loop_run. unfold card_world. cbn [Serial].
  now rewrite tick_world_serial, <- app_assoc.
Qed.

Lemma loop_emitted (env : Env) (w : World) :
  emitted (loop env) w =
  tick_calls env w ++ card_calls env (tick_world env w).
Proof. apply emitted_app, loop_serial. Qed.

Lemma stamp_joined_wifi (env : Env) (l : list string) :
  forall k, forallb is_wifi_event (stamp env RadioJoined l k) = true.
Proof. induction l; intros k; cbn; [reflexivity | apply IHl]. Qed.

Lemma stamp_left_wifi (env : Env) (l : list string) :
  forall k, forallb is_wifi_event (stamp env RadioLeft l k) = true.
Proof. induction l; intros k; cbn; [reflexivity | apply IHl]. Qed.

Lemma poll_events_wifi (env : Env) (w : World) :
  forallb is_wifi_event (poll_events env w) = true.
Proof.
  unfold poll_events.
  now rewrite forallb_app, stamp_joined_wifi, stamp_left_wifi.
Qed.

Lemma is_wifi_record_line (e : Event) :
  is_wifi_record (record_line e) = is_wifi_event e.
Proof.
  unfold is_wifi_record, record_line. cbn [event_of_call].
  now rewrite event_of_canonical_record.
Qed.

Lemma is_card_record_line (e : Event) :
  is_card_record (record_line e) = negb (is_wifi_event e).
Proof.
  unfold is_card_record, record_line. cbn [event_of_call].
  rewrite event_of_canonical_record. now destruct e.
Qed.

Lemma tick_calls_wifi (env : Env) (w : World) (c : SerialCall) :
  In c (tick_calls env w) ->
  is_wifi_record c = true /\ is_card_record c = false.
Proof.
  unfold tick_calls. destruct (due env w); [| intros []].
  rewrite poll_emitted. intros H. apply in_map_iff in H.
  destruct H as [e [<- He]].
  pose proof (poll_events_wifi env (exec (millis env) w)) as A.
  rewrite forallb_forall in A. specialize (A e He).
  now rewrite is_wifi_record_line, is_card_record_line, A.
Qed.

Lemma card_calls_not_wifi (env : Env) (w : World) (c : SerialCall) :
  In c (card_calls env w) -> is_wifi_record c = false.
Proof.
  unfold card_calls. destruct (card_ok env w); [| intros []].
  intros [<- | [<- | [<- | []]]]; reflexivity.
Qed.

Lemma wifi_before_card (W C : list SerialCall) :
  (forall c, In c W -> is_card_record c = false) ->
  (forall d, In d C -> is_wifi_record d = false) ->
  forall i j c d,
    nth_error (W ++ C) i = Some c -> is_card_record c = true ->
    nth_error (W ++ C) j = Some d -> is_wifi_record d = true ->
    (j < i)%nat.
Proof.
  intros HW HC i j c d Hi Ci Hj Wj.
  assert (Li : (List.length W <= i)%nat).
  { destruct (le_lt_dec (List.length W) i) as [L | L]; [exact L |].
    rewrite nth_error_app1 in Hi by exact L.
    apply nth_error_In, HW in Hi. congruence. }
  assert (Lj : (j < List.length W)%nat).
  { destruct (le_lt_dec (List.length W) j) as [L | L]; [| exact L].
    rewrite nth_error_app2 in Hj by exact L.
    apply nth_error_In, HC in Hj. congruence. }
  lia.
Qed.

Lemma filter_wifi_app (W C : list SerialCall) :
  (forall c, In c W -> is_wifi_record c = true) ->
  (forall d, In d C -> is_wifi_record d = false) ->
  filter is_wifi_record (W ++ C) = W.
Proof.
  intros HW HC. rewrite filter_app.
  replace (filter is_wifi_record C) with (@nil SerialCall).
  - rewrite app_nil_r. apply forallb_filter_id, forallb_forall, HW.
  - symmetry. induction C as [| d C IH]; [reflexivity |].
    cbn [filter]. rewrite (HC d (or_introl eq_refl)).
    apply IH. intros x Hx. apply HC. now right.
Qed.

(** C6: in an iteration in which the radio tick is due, every wifi record
    written in the iteration comes before every card record written in it,
    and the wifi records of the iteration are exactly what the station poll
    wrote. *)
Theorem loop_wifi_records_first (env : Env) (w : World) :
  POLL_INTERVAL <= ulong (clock env (clock_reads w) - lastPoll w) ->
  let out := emitted (loop env) w in
  (forall i j c d,
     nth_error out i = Some c -> is_card_record c = true ->
     nth_error out j = Some d -> is_wifi_record d = true ->
     (j < i)%nat) /\
  filter is_wifi_record out =
    emitted (handleStationChanges env) (exec (millis env) w).
Proof.
  intros D. cbv zeta. rewrite loop_emitted. split.
  - apply wifi_before_card.
    + intros c H. now apply tick_calls_wifi in H.
    + apply card_calls_not_wifi.
  - rewrite filter_wifi_app.
    + unfold tick_calls, due. apply Z.leb_le in D. now rewrite D.
    + intros c H. now apply tick_calls_wifi in H.
    + apply card_calls_not_wifi.
Qed.

(** C10: in an iteration in which the radio tick is not due, the stored
    vector and the tick timestamp are the same after the iteration as
    before it, whatever the card reader answers. *)
Theorem loop_not_due_keeps_station_state (env : Env) (w : World) :
  ulong (clock env (clock_reads w) - lastPoll w) < POLL_INTERVAL ->
  prevStations (exec (loop env) w) = prevStations w /\
  lastPoll (exec (loop env) w) = lastPoll w.
Proof.
  intros D. rewrite loop_run. unfold card_world, tick_world, due.
  apply Z.leb_gt in D. rewrite D. split; reflexivity.
Qed.

Lemma loop_wifi_records_first_witness :
  let out := emitted (loop env_card) world_late in
  (forall i j c d,
     nth_error out i = Some c -> is_card_record c = true ->
     nth_error out j = Some d -> is_wifi_record d = true ->
     (j < i)%nat) /\
  filter is_wifi_record out =
    emitted (handleStationChanges env_card) (exec (millis env_card) world_late).
Proof.
  apply (loop_wifi_records_first env_card world_late).
  vm_compute. discriminate.
Defined.

Lemma loop_not_due_keeps_station_state_witness :
  prevStations (exec (loop env_card) world_A) = prevStations world_A /\
  lastPoll (exec (loop env_card) world_A) = lastPoll world_A.
Proof.
  apply (loop_not_due_keeps_station_state env_card world_A).
  vm_compute. reflexivity.
Defined.

(** ** Lines on the channel *)

(** C5, as the code has it: a station poll writes, for each event it
    reports, one line holding that event's record and nothing else; a card
    read writes the line with the card's record and then a second line, the
    text "RFID read: " followed by the UID string.  So an iteration writes
    one line per event, plus one when a card was read. *)
Theorem lines_per_event (env : Env) (w : World) :
  let w1 := tick_world env w in
  let uid := uidString_of (uid_bytes (picc env (picc_reads w1))) "" in
  let ts := clock env (clock_reads w1) in
  emitted (handleStationChanges env) w =
    map record_line (events (emitted (handleStationChanges env) w)) /\
  forallb is_wifi_event (events (emitted (handleStationChanges env) w))
    = true /\
  emitted (loop env) w =
    (if due env w
     then emitted (handleStationChanges env) (exec (millis env) w)
     else []) ++
    (if card_ok env w1
     then [record_line (CardPresented uid ts);
           Serial_print (Text "RFID read: ");
           Serial_println (Text uid)]
     else []) /\
  lines_written (emitted (loop env) w) =
    (List.length (events (emitted (loop env) w)) +
     (if card_ok env w1 then 1 else 0))%nat.
Proof.
  cbv zeta. split; [| split; [| split]].
  - now rewrite poll_events_of, poll_emitted.
  - rewrite poll_events_of. apply poll_events_wifi.
  - rewrite loop_emitted. reflexivity.
  - rewrite loop_emitted. unfold lines_written.
    rewrite events_app, filter_app, !length_app.
    assert (T : List.length (filter ends_line (tick_calls env w)) =
                List.length (events (tick_calls env w))).
    { unfold tick_calls. destruct (due env w); [| reflexivity].
      rewrite poll_emitted, events_record_lines.
      apply lines_written_record_lines. }
    assert (C : List.length
                  (filter ends_line (card_calls env (tick_world env w))) =
                (List.length (events (card_calls env (tick_world env w))) +
                 (if card_ok env (tick_world env w) then 1 else 0))%nat).
    { unfold card_calls. now destruct (card_ok env (tick_world env w)). }
    rewrite T, C. lia.
Qed.

(** C5 fails on the code: the iteration that reads the card reports one
    event and writes two lines. *)
Lemma card_read_writes_two_lines :
  emitted (loop env_card) boot =
    [Serial_println (Json [("type", JString "rfid");
                           ("uid", JString "DE00ABEEF");
                           ("ts", JUInt 1000)]);
     Serial_print (Text "RFID read: ");
     Serial_println (Text "DE00ABEEF")] /\
  List.length (events (emitted (loop env_card) boot)) = 1%nat /\
  lines_written (emitted (loop env_card) boot) = 2%nat.
Proof. repeat split; vm_compute; reflexivity. Qed.

(** ** The result of a channel write *)

Lemma wifi_lines_uart_irrelevant (env : Env) (f : nat -> Z) (event : string)
    (keep : string -> bool) (l : list string) :
  forall k,
    wifi_lines (mkEnv (clock env) (radio env) (picc env) f) event keep l k =
    wifi_lines env event keep l k.
Proof.
  induction l as [| mac l IH]; intros k; cbn [wifi_lines]; [reflexivity |].
  destruct (keep mac); [| apply IH].
  rewrite IH. reflexivity.
Qed.

Lemma loop_uart_irrelevant (env : Env) (f : nat -> Z) (w : World) :
  exec (loop (mkEnv (clock env) (radio env) (picc env) f)) w =
  exec (loop env) w.
Proof.
  rewrite !loop_run.
  assert (T : tick_world (mkEnv (clock env) (radio env) (picc env) f) w =
              tick_world env w).
  { unfold tick_world, due. cbn [clock].
    destruct (POLL_INTERVAL <=? ulong (clock env (clock_reads w) - lastPoll w));
      [| reflexivity].
    unfold exec. rewrite !handleStationChanges_run.
    unfold left_lines, joined_lines.
    rewrite !(wifi_lines_uart_irrelevant env f). reflexivity. }
  rewrite T. reflexivity.
Qed.

(** C8, as the code has it: [sendJson] returns nothing.  Whatever the
    writes on the channel return, [sendJson] yields the same unit value and
    the same world, and any number of loop iterations leave the same
    world: the result of a write reaches no caller. *)
Theorem write_result_is_discarded (env : Env) (f : nat -> Z) (w : World)
    (doc : JsonDocument) (n : nat) :
  let env' := mkEnv (clock env) (radio env) (picc env) f in
  sendJson env' doc w = (tt, exec (sendJson env doc) w) /\
  exec (loops env' n) w = exec (loops env n) w.
Proof.
  cbv zeta. split; [reflexivity |].
  revert w. induction n as [| n IH]; intros w; [reflexivity |].
  cbn [loops]. rewrite !exec_seq, loop_uart_irrelevant. apply IH.
Qed.

(** C8 fails on the code: the write of a record fails (it returns 0 where a
    working channel returns 64), and [sendJson] hands its caller the same
    value and the same world in both cases. *)
Lemma sendJson_swallows_write_failure :
  eval (Serial_call env_down
          (Serial_println (Json (rfid_doc "DE00ABEEF" 1000)))) boot = 0 /\
  eval (Serial_call env_card
          (Serial_println (Json (rfid_doc "DE00ABEEF" 1000)))) boot = 64 /\
  sendJson env_down (rfid_doc "DE00ABEEF" 1000) boot =
  sendJson env_card (rfid_doc "DE00ABEEF" 1000) boot.
Proof. repeat split. Qed.

(** ** The UID string *)

Lemma string_length_append (s t : string) :
  String.length (s ++ t)%string = (String.length s + String.length t)%nat.
Proof. induction s as [| c s IH]; cbn; [reflexivity | now rewrite IH]. Qed.

Lemma uidString_of_length (uid : list byte) : forall acc,
  String.length (uidString_of uid acc) =
  (String.length acc + 2 * List.length uid + low_bytes uid)%nat.
Proof.
  unfold low_bytes.
  induction uid as [| b uid IH]; intros acc; cbn [uidString_of].
  - cbn. lia.
  - rewrite IH. cbn [filter List.length].
    destruct (Byte.to_N b <? 16)%N; rewrite !string_length_append;
      cbn [String.length List.length sprintf_02X]; lia.
Qed.

(** C4 fails on the code: a UID byte below 0x10 is rendered with three
    characters, the ["0"] the loop appends and the two of [%02X]; the card
    DE 0A BE EF is reported as the nine characters DE00ABEEF. *)
Theorem uid_low_byte_gets_three_digits :
  uidString_of [x0a] "" = "00A"%string /\
  cards (events (emitted (loop env_card) boot)) = ["DE00ABEEF"%string] /\
  String.length (uidString_of [xde; x0a; xbe; xef] "") = 9%nat.
Proof. repeat split. Qed.


(** ** Further properties of the rendering *)

(** X1: two different hardware addresses never render to the same PeerId
    string. *)
Theorem distinct_macs_distinct_strings (m n : MacAddr) :
  m <> n -> macToString m <> macToString n.
Proof. intros N E. apply N. now apply macToString_inj. Qed.

Lemma distinct_macs_distinct_strings_witness :
  macToString macA <> macToString macB.
Proof.
  apply (distinct_macs_distinct_strings macA macB). discriminate.
Defined.

Lemma sprintf_02X_upper (b : byte) :
  is_upper_hex (hex_digit (Byte.to_N b / 16)) = true /\
  is_upper_hex (hex_digit (Byte.to_N b mod 16)) = true.
Proof. destruct b; vm_compute; split; reflexivity. Qed.

Lemma classify_hex (c : ascii) : is_upper_hex c = true -> classify c = UpperHex.
Proof. intros H. unfold classify. now rewrite H. Qed.

(** X2: the string of a hardware address has 17 characters: six pairs of
    uppercase hexadecimal digits with a colon between neighbouring pairs. *)
Theorem macToString_shape (m : MacAddr) :
  map classify (list_ascii_of_string (macToString m)) =
  [UpperHex; UpperHex; Colon; UpperHex; UpperHex; Colon;
   UpperHex; UpperHex; Colon; UpperHex; UpperHex; Colon;
   UpperHex; UpperHex; Colon; UpperHex; UpperHex].
Proof.
  destruct m as [a0 a1 a2 a3 a4 a5].
  unfold macToString, sprintf_02X; cbn [mac0 mac1 mac2 mac3 mac4 mac5].
  cbn [String.append list_ascii_of_string map].
  destruct (sprintf_02X_upper a0) as [H0 L0].
  destruct (sprintf_02X_upper a1) as [H1 L1].
  destruct (sprintf_02X_upper a2) as [H2 L2].
  destruct (sprintf_02X_upper a3) as [H3 L3].
  destruct (sprintf_02X_upper a4) as [H4 L4].
  destruct (sprintf_02X_upper a5) as [H5 L5].
  rewrite !(classify_hex _ H0), !(classify_hex _ L0), !(classify_hex _ H1),
    !(classify_hex _ L1), !(classify_hex _ H2), !(classify_hex _ L2),
    !(classify_hex _ H3), !(classify_hex _ L3), !(classify_hex _ H4),
    !(classify_hex _ L4), !(classify_hex _ H5), !(classify_hex _ L5).
  reflexivity.
Qed.

(** X3: the UID string has two characters per byte plus one more for every
    byte below 0x10. *)
Theorem uid_string_length (uid : list byte) :
  String.length (uidString_of uid "") =
  (2 * List.length uid + low_bytes uid)%nat.
Proof. rewrite uidString_of_length. reflexivity. Qed.

Lemma string_append_assoc (a b c : string) :
  ((a ++ b) ++ c = a ++ (b ++ c))%string.
Proof. induction a as [| x a IH]; cbn; [reflexivity | now rewrite IH]. Qed.

Lemma string_append_nil_r (a : string) : (a ++ "" = a)%string.
Proof. induction a as [| x a IH]; cbn; [reflexivity | now rewrite IH]. Qed.

Lemma uidString_of_chunks (uid : list byte) : forall acc,
  uidString_of uid acc =
  (acc ++ fold_right (fun b r => uid_chunk b ++ r) "" uid)%string.
Proof.
  induction uid as [| b uid IH]; intros acc; cbn [uidString_of fold_right].
  - now rewrite string_append_nil_r.
  - rewrite IH. unfold uid_chunk.
    destruct (Byte.to_N b <? 16)%N; now rewrite !string_append_assoc.
Qed.

Lemma parse_uid_chunk (b : byte) (s : string) :
  parse_uid (uid_chunk b ++ s) =
  match parse_uid s with
  | Some l => Some (b :: l)
  | None => None
  end.
Proof. destruct b; cbn; destruct (parse_uid s); reflexivity. Qed.

Lemma parse_uidString_of (uid : list byte) :
  parse_uid (uidString_of uid "") = Some uid.
Proof.
  rewrite uidString_of_chunks. cbn [String.append].
  induction uid as [| b uid IH]; [reflexivity |].
  cbn [fold_right]. now rewrite parse_uid_chunk, IH.
Qed.

(** X4: two different UIDs never give the same UID string, the extra digit
    of the low bytes notwithstanding. *)
Theorem distinct_uids_distinct_strings (u v : list byte) :
  u <> v -> uidString_of u "" <> uidString_of v "".
Proof.
  intros N E. apply N.
  assert (S : Some u = Some v)
    by now rewrite <- (parse_uidString_of u), <- (parse_uidString_of v), E.
  now inversion S.
Qed.

Lemma distinct_uids_distinct_strings_witness :
  uidString_of [x00; xa0] "" <> uidString_of [x0a; x00] "".
Proof.
  apply (distinct_uids_distinct_strings [x00; xa0] [x0a; x00]). discriminate.
Defined.

(** ** Further properties of the station poll *)

Lemma filter_none {A} (f : A -> bool) (l : list A) :
  (forall x, In x l -> f x = false) -> filter f l = [].
Proof.
  induction l as [| a l IH]; intros H; [reflexivity |].
  cbn [filter]. rewrite (H a (or_introl eq_refl)).
  apply IH. intros x Hx. apply H. now right.
Qed.

(** X5: when the snapshot has the same members as the stored vector (both
    may be empty), the poll writes nothing and stores the snapshot. *)
Theorem poll_same_members_is_silent (env : Env) (w : World) :
  (forall p, In p (prevStations w) <-> In p (snapshot env w)) ->
  emitted (handleStationChanges env) w = [] /\
  Serial (exec (handleStationChanges env) w) = Serial w /\
  prevStations (exec (handleStationChanges env) w) = snapshot env w.
Proof.
  intros Same.
  assert (E : emitted (handleStationChanges env) w = []).
  { rewrite poll_emitted. unfold poll_events, joined_of, left_of.
    rewrite !filter_none; [reflexivity | |].
    - intros x Hx. apply negb_false_iff, found_in_true. now apply Same.
    - intros x Hx. apply negb_false_iff, found_in_true. now apply Same. }
  split; [exact E |]. split; [| apply poll_prevStations].
  rewrite poll_serial, E. apply app_nil_r.
Qed.

Lemma poll_same_members_is_silent_witness :
  emitted (handleStationChanges env_card) world_A = [] /\
  Serial (exec (handleStationChanges env_card) world_A) = Serial world_A /\
  prevStations (exec (handleStationChanges env_card) world_A) =
    snapshot env_card world_A.
Proof.
  apply (poll_same_members_is_silent env_card world_A).
  intros p. vm_compute. tauto.
Defined.

(** X6: one poll asks the driver once, reads the clock once per record it
    writes, and touches neither the tick timestamp nor the card reader. *)
Theorem poll_footprint (env : Env) (w : World) :
  let w' := exec (handleStationChanges env) w in
  radio_reads w' = S (radio_reads w) /\
  clock_reads w' =
    (clock_reads w +
     List.length (events (emitted (handleStationChanges env) w)))%nat /\
  lastPoll w' = lastPoll w /\
  mfrc522_uid w' = mfrc522_uid w /\
  bus w' = bus w /\
  picc_reads w' = picc_reads w.
Proof.
  cbv zeta. rewrite poll_events_of. unfold exec.
  rewrite handleStationChanges_run. cbn [snd radio_reads clock_reads lastPoll
    mfrc522_uid bus picc_reads].
  repeat split.
  unfold poll_events, left_lines, joined_lines, left_of, joined_of.
  rewrite !wifi_lines_connected, wifi_lines_disconnected.
  rewrite !length_app, !length_map, !stamp_length. reflexivity.
Qed.

Lemma is_join_stamp_joined (env : Env) (l : list string) :
  forall k, map is_join (stamp env RadioJoined l k) =
            repeat true (List.length l).
Proof. induction l; intros k; cbn; [reflexivity | now rewrite IHl]. Qed.

Lemma is_join_stamp_left (env : Env) (l : list string) :
  forall k, map is_join (stamp env RadioLeft l k) =
            repeat false (List.length l).
Proof. induction l; intros k; cbn; [reflexivity | now rewrite IHl]. Qed.

(** X7: within one poll all "connected" records come first, for the new
    peers in the order of the snapshot, and all "disconnected" records
    after them, for the missing peers in the order of the stored vector. *)
Theorem poll_joins_then_leaves (env : Env) (w : World) :
  let evs := events (emitted (handleStationChanges env) w) in
  map is_join evs =
    repeat true (List.length (joined_peers evs)) ++
    repeat false (List.length (left_peers evs)) /\
  joined_peers evs =
    filter (fun m => negb (found_in (prevStations w) m)) (snapshot env w) /\
  left_peers evs =
    filter (fun m => negb (found_in (snapshot env w) m)) (prevStations w).
Proof.
  cbv zeta. rewrite poll_joined_peers, poll_left_peers, poll_events_of.
  split; [| split; reflexivity].
  unfold poll_events.
  now rewrite map_app, is_join_stamp_joined, is_join_stamp_left.
Qed.

Lemma found_in_Permutation (l l' : list string) (p : string) :
  Permutation l l' -> found_in l p = found_in l' p.
Proof.
  intros P. destruct (found_in l' p) eqn:F.
  - apply found_in_true. apply found_in_true in F.
    now apply (Permutation_in p (Permutation_sym P)).
  - apply found_in_false. apply found_in_false in F.
    intros H. apply F. now apply (Permutation_in p P).
Qed.

Lemma filter_Permutation (f g : string -> bool) (l l' : list string) :
  (forall x, f x = g x) -> Permutation l l' ->
  Permutation (filter f l) (filter g l').
Proof.
  intros E P. induction P as [| x l l' P IH | x y l | l l' l'' P1 IH1 P2 IH2].
  - constructor.
  - cbn [filter]. rewrite <- E. destruct (f x); [now constructor | exact IH].
  - cbn [filter]. rewrite <- !E.
    assert (R : Permutation (filter f l) (filter g l)).
    { erewrite (filter_ext f g); [apply Permutation_refl | exact E]. }
    destruct (f x), (f y); try now repeat constructor.
    etransitivity; [apply perm_swap |]. now repeat constructor.
  - etransitivity; [exact IH1 |].
    etransitivity; [| exact IH2].
    erewrite (filter_ext g f); [apply Permutation_refl |].
    intros a. symmetry. apply E.
Qed.

(** X8: the poll does not depend on the order of its vectors: when the
    stored vectors of two worlds are permutations of each other and so are
    the two snapshots, the peers reported as joined are the same up to
    order, and so are the peers reported as left. *)
Theorem poll_order_independent (env env' : Env) (w w' : World) :
  Permutation (prevStations w) (prevStations w') ->
  Permutation (snapshot env w) (snapshot env' w') ->
  Permutation
    (joined_peers (events (emitted (handleStationChanges env) w)))
    (joined_peers (events (emitted (handleStationChanges env') w'))) /\
  Permutation
    (left_peers (events (emitted (handleStationChanges env) w)))
    (left_peers (events (emitted (handleStationChanges env') w'))).
Proof.
  intros Pp Ps. rewrite !poll_joined_peers, !poll_left_peers.
  unfold joined_of, left_of. split.
  - apply filter_Permutation; [| exact Ps].
    intros x. f_equal. now apply found_in_Permutation.
  - apply filter_Permutation; [| exact Pp].
    intros x. f_equal. now apply found_in_Permutation.
Qed.

Lemma poll_order_independent_witness :
  Permutation
    (joined_peers (events (emitted (handleStationChanges env_BC) world_AB)))
    (joined_peers (events (emitted (handleStationChanges env_BC) world_BA)))
  /\
  Permutation
    (left_peers (events (emitted (handleStationChanges env_BC) world_AB)))
    (left_peers (events (emitted (handleStationChanges env_BC) world_BA))).
Proof.
  apply (poll_order_independent env_BC env_BC world_AB world_BA).
  - apply perm_swap.
  - apply Permutation_refl.
Defined.

(** ** Further properties of the main loop *)







Lemma ulong_elapsed (lp d : Z) :
  0 <= d < 2 ^ 32 -> ulong (ulong (lp + d) - lp) = d.
Proof.
  intros R. unfold ulong. rewrite Zminus_mod_idemp_l.
  replace (lp + d - lp) with d by lia. now apply Z.mod_small.
Qed.

Lemma loop_lastPoll (env : Env) (w : World) :
  lastPoll (exec (loop env) w) =
  if due env w then clock env (clock_reads w) else lastPoll w.
Proof.
  rewrite loop_run. unfold card_world, tick_world. cbn [lastPoll].
  now destruct (due env w).
Qed.

(** X10: the tick test counts elapsed time modulo 2^32, so it is right
    across a wrap of the millisecond clock: if [d] milliseconds (below
    2^32) passed since the stored tick timestamp, the iteration sets the
    timestamp to the clock reading when [d] is at least 2000 and keeps it
    otherwise. *)
Theorem tick_test_across_wrap (env : Env) (w : World) (d : Z) :
  0 <= d < 2 ^ 32 ->
  clock env (clock_reads w) = ulong (lastPoll w + d) ->
  lastPoll (exec (loop env) w) =
  if POLL_INTERVAL <=? d then clock env (clock_reads w) else lastPoll w.
Proof.
  intros R Hnow. rewrite loop_lastPoll. unfold due.
  now rewrite Hnow at 1; rewrite ulong_elapsed.
Qed.

Lemma tick_test_across_wrap_witness :
  lastPoll (exec (loop env_wrapped) world_before_wrap) =
  if POLL_INTERVAL <=? 2200
  then clock env_wrapped (clock_reads world_before_wrap)
  else lastPoll world_before_wrap.
Proof.
  apply (tick_test_across_wrap env_wrapped world_before_wrap 2200).
  - vm_compute. split; [discriminate | reflexivity].
  - vm_compute. reflexivity.
Defined.

(** X11: in an iteration in which the tick is due, the driver is asked
    once, the stored vector becomes that snapshot and the tick timestamp
    becomes the clock reading taken at the start of the iteration. *)
Theorem loop_due_runs_poll (env : Env) (w : World) :
  POLL_INTERVAL <= ulong (clock env (clock_reads w) - lastPoll w) ->
  prevStations (exec (loop env) w) = snapshot env w /\
  lastPoll (exec (loop env) w) = clock env (clock_reads w) /\
  radio_reads (exec (loop env) w) = S (radio_reads w).
Proof.
  intros D. apply Z.leb_le in D.
  assert (Due : due env w = true) by exact D.
  split; [| split].
  - rewrite loop_run. unfold card_world, tick_world. rewrite Due.
    cbn [prevStations]. unfold exec. rewrite handleStationChanges_run.
    cbn [snd set_lastPoll prevStations]. now rewrite !snapshot_eq.
  - now rewrite loop_lastPoll, Due.
  - rewrite loop_run. unfold card_world, tick_world. rewrite Due.
    cbn [radio_reads]. unfold exec. now rewrite handleStationChanges_run.
Qed.

Lemma loop_due_runs_poll_witness :
  prevStations (exec (loop env_card) world_late) =
    snapshot env_card world_late /\
  lastPoll (exec (loop env_card) world_late) =
    clock env_card (clock_reads world_late) /\
  radio_reads (exec (loop env_card) world_late) = S (radio_reads world_late).
Proof.
  apply (loop_due_runs_poll env_card world_late).
  vm_compute. discriminate.
Defined.

(** ** Timestamps *)

Lemma timestamps_app (a b : list Event) :
  timestamps (a ++ b) = timestamps a ++ timestamps b.
Proof. apply map_app. Qed.

Lemma timestamps_stamp_joined (env : Env) (l : list string) :
  forall k, timestamps (stamp env RadioJoined l k) =
            map (clock env) (seq k (List.length l)).
Proof. induction l; intros k; cbn; [reflexivity | now rewrite <- IHl]. Qed.

Lemma timestamps_stamp_left (env : Env) (l : list string) :
  forall k, timestamps (stamp env RadioLeft l k) =
            map (clock env) (seq k (List.length l)).
Proof. induction l; intros k; cbn; [reflexivity | now rewrite <- IHl]. Qed.

Lemma poll_events_length (env : Env) (w : World) :
  List.length (poll_events env w) =
  (List.length (joined_of env w) + List.length (left_of env w))%nat.
Proof. unfold poll_events. now rewrite length_app, !stamp_length. Qed.

Lemma poll_timestamps (env : Env) (w : World) :
  timestamps (poll_events env w) =
  map (clock env) (seq (clock_reads w) (List.length (poll_events env w))).
Proof.
  rewrite poll_events_length. unfold poll_events.
  rewrite timestamps_app, timestamps_stamp_joined, timestamps_stamp_left.
  now rewrite seq_app, map_app.
Qed.

Lemma poll_clock_reads (env : Env) (w : World) :
  clock_reads (exec (handleStationChanges env) w) =
  (clock_reads w + List.length (poll_events env w))%nat.
Proof.
  unfold exec. rewrite handleStationChanges_run. cbn [snd clock_reads].
  rewrite poll_events_length. unfold left_lines, joined_lines.
  rewrite !wifi_lines_connected, wifi_lines_disconnected.
  rewrite !length_app, !length_map, !stamp_length. unfold joined_of, left_of.
  lia.
Qed.

(** The first [if] of [loop]: the clock reading at [c] is [now]; the
    readings after it stamp the poll's records. *)
Lemma tick_timestamps (env : Env) (w : World) :
  timestamps (events (tick_calls env w)) =
    map (clock env)
      (seq (S (clock_reads w))
           (clock_reads (tick_world env w) - S (clock_reads w))) /\
  (S (clock_reads w) <= clock_reads (tick_world env w))%nat.
Proof.
  unfold tick_calls, tick_world. destruct (due env w).
  - rewrite poll_events_of, poll_timestamps.
    change (clock_reads (exec (set_lastPoll ?t) ?v)) with (clock_reads v).
    rewrite poll_clock_reads.
    change (clock_reads (exec (millis env) w)) with (S (clock_reads w)).
    split; [| lia]. do 2 f_equal. lia.
  - change (clock_reads (exec (millis env) w)) with (S (clock_reads w)).
    rewrite Nat.sub_diag. split; [reflexivity | lia].
Qed.

Lemma loop_timestamps (env : Env) (w : World) :
  timestamps (events (emitted (loop env) w)) =
    map (clock env)
      (seq (S (clock_reads w))
           (clock_reads (exec (loop env) w) - S (clock_reads w))) /\
  (S (clock_reads w) <= clock_reads (exec (loop env) w))%nat.
Proof.
  rewrite loop_emitted, loop_run, events_app, timestamps_app.
  destruct (tick_timestamps env w) as [T L]. rewrite T.
  unfold card_world, card_calls. cbn [clock_reads].
  set (c1 := clock_reads (tick_world env w)) in *.
  destruct (card_ok env (tick_world env w)).
  - cbn [events event_of_call record_line].
    rewrite event_of_canonical_record. cbn [events event_of_call timestamps
      map event_ts]. split; [| lia].
    replace (S c1 - S (clock_reads w))%nat
      with (S (c1 - S (clock_reads w))) by lia.
    rewrite seq_S, map_app. cbn [map]. do 3 f_equal. lia.
  - cbn [events timestamps map]. rewrite app_nil_r. split; [reflexivity | lia].
Qed.

(** X12: in every iteration the first clock reading is the tick test's
    [now] and every later reading of the iteration is the timestamp of
    exactly one record, in the order in which the records are written. *)
Theorem loop_stamps_with_successive_readings (env : Env) (w : World) :
  let c := clock_reads w in
  let c' := clock_reads (exec (loop env) w) in
  (S c <= c')%nat /\
  timestamps (events (emitted (loop env) w)) =
    map (clock env) (seq (S c) (c' - S c)).
Proof. cbv zeta. destruct (loop_timestamps env w). now split. Qed.

Lemma loops_serial (env : Env) (n : nat) : forall w,
  Serial (exec (loops env n) w) = Serial w ++ emitted (loops env n) w.
Proof.
  induction n as [| n IH]; intros w.
  - unfold emitted. cbn. now rewrite skipn_all, app_nil_r.
  - assert (E : Serial (exec (loops env (S n)) w) =
                Serial w ++ emitted (loop env) w ++
                emitted (loops env n) (exec (loop env) w)).
    { cbn [loops]. rewrite exec_seq, IH, loop_serial, loop_emitted.
      now rewrite <- !app_assoc. }
    now rewrite (emitted_app _ _ _ E).
Qed.

Lemma loops_emitted_S (env : Env) (n : nat) (w : World) :
  emitted (loops env (S n)) w =
  emitted (loop env) w ++ emitted (loops env n) (exec (loop env) w).
Proof.
  apply emitted_app. cbn [loops].
  rewrite exec_seq, loops_serial, loop_serial, loop_emitted.
  now rewrite <- !app_assoc.
Qed.

Lemma nondecreasing_app (a b : list Z) (x : Z) :
  nondecreasing a = true -> nondecreasing b = true ->
  Forall (fun t => t <= x) a -> Forall (fun t => x <= t) b ->
  nondecreasing (a ++ b) = true.
Proof.
  intros Ha Hb Fa Fb. induction a as [| a0 a IH]; [exact Hb |].
  destruct a as [| a1 a].
  - cbn [app]. destruct b as [| b0 b]; [reflexivity |].
    change (((a0 <=? b0) && nondecreasing (b0 :: b)) = true). rewrite Hb.
    inversion Fa; inversion Fb; subst.
    apply andb_true_intro; split; [apply Z.leb_le; lia | reflexivity].
  - change (((a0 <=? a1) && nondecreasing ((a1 :: a) ++ b)) = true).
    change (((a0 <=? a1) && nondecreasing (a1 :: a)) = true) in Ha.
    apply andb_prop in Ha. destruct Ha as [H01 Hr].
    rewrite H01. cbn [andb]. apply IH; [exact Hr |].
    now inversion Fa.
Qed.

Section MonotoneClock.

Variable env : Env.
Hypothesis clock_mono :
  forall i j : nat, (i <= j)%nat -> clock env i <= clock env j.

Lemma nondecreasing_readings (m : nat) : forall a,
  nondecreasing (map (clock env) (seq a m)) = true.
Proof.
  induction m as [| m IH]; intros a; [reflexivity |].
  cbn [seq map]. destruct m as [| m]; [reflexivity |].
  change ((clock env a <=? clock env (S a)) &&
          nondecreasing (map (clock env) (seq (S a) (S m))) = true).
  rewrite IH, andb_true_r. apply Z.leb_le, clock_mono. lia.
Qed.

Lemma readings_bounded (a m : nat) :
  Forall (fun t => clock env a <= t <= clock env (a + m))
         (map (clock env) (seq a m)).
Proof.
  apply Forall_forall. intros t Ht. apply in_map_iff in Ht.
  destruct Ht as [k [<- Hk]]. apply in_seq in Hk.
  split; apply clock_mono; lia.
Qed.

Lemma loops_timestamps_sorted (n : nat) : forall w,
  nondecreasing (timestamps (events (emitted (loops env n) w))) = true /\
  Forall (fun t => clock env (clock_reads w) <= t <=
                   clock env (clock_reads (exec (loops env n) w)))
         (timestamps (events (emitted (loops env n) w))) /\
  (clock_reads w <= clock_reads (exec (loops env n) w))%nat.
Proof.
  induction n as [| n IH]; intros w.
  - unfold emitted. cbn. rewrite skipn_all. cbn. repeat split; [| lia].
    constructor.
  - rewrite loops_emitted_S, events_app, timestamps_app.
    cbn [loops]. rewrite exec_seq.
    destruct (loop_timestamps env w) as [T L]. rewrite T.
    set (w1 := exec (loop env) w) in *.
    destruct (IH w1) as (S2 & B2 & L2).
    pose proof (readings_bounded (S (clock_reads w))
                  (clock_reads w1 - S (clock_reads w))) as B1.
    replace (S (clock_reads w) + (clock_reads w1 - S (clock_reads w)))%nat
      with (clock_reads w1) in B1 by lia.
    split; [| split; [| lia]].
    + apply (nondecreasing_app _ _ (clock env (clock_reads w1)));
        [apply nondecreasing_readings | exact S2 | |].
      * eapply Forall_impl; [| exact B1]. cbn. intros t Ht. lia.
      * eapply Forall_impl; [| exact B2]. cbn. intros t Ht. lia.
    + apply Forall_app. split.
      * eapply Forall_impl; [| exact B1]. cbn. intros t [H1 H2].
        pose proof (clock_mono (clock_reads w) (S (clock_reads w))).
        pose proof (clock_mono (clock_reads w1)
                      (clock_reads (exec (loops env n) w1)) L2).
        lia.
      * eapply Forall_impl; [| exact B2]. cbn. intros t [H1 H2].
        pose proof (clock_mono (clock_reads w) (clock_reads w1)).
        lia.
Qed.

End MonotoneClock.

(** X13: when the clock readings never decrease, the timestamps of the
    records written over any number of loop iterations, wifi and card
    records alike, never decrease in the order of writing. *)
Theorem timestamps_never_decrease (env : Env) (n : nat) (w : World) :
  (forall i j : nat, (i <= j)%nat -> clock env i <= clock env j) ->
  nondecreasing (timestamps (events (emitted (loops env n) w))) = true.
Proof.
  intros Mono. apply (loops_timestamps_sorted env Mono n w).
Qed.

Lemma timestamps_never_decrease_witness :
  nondecreasing (timestamps (events (emitted (loops env_card 4) boot)))
  = true.
Proof.
  apply (timestamps_never_decrease env_card 4 boot).
  intros i j L. cbn [clock env_card]. lia.
Defined.

(** ** The host's view of the station set *)

Lemma transitions_cards (p : string) (env : Env) (w : World) :
  transitions p (events (card_calls env w)) = [].
Proof.
  unfold card_calls. destruct (card_ok env w); [| reflexivity].
  cbn [events event_of_call record_line].
  now rewrite event_of_canonical_record.
Qed.

Lemma tracked_tick (env : Env) (p : string) (w : World) :
  (forall k, NoDup (snd (radio env k))) ->
  tracked p w -> tracked p (tick_world env w).
Proof.
  intros ND T. unfold tick_world. destruct (due env w); [| exact T].
  change (tracked p (exec (handleStationChanges env) (exec (millis env) w))).
  apply tracked_poll; [| exact T].
  rewrite snapshot_eq. apply NoDup_stations_of, ND.
Qed.

Lemma tracked_loop (env : Env) (p : string) (w : World) :
  (forall k, NoDup (snd (radio env k))) ->
  tracked p w -> tracked p (exec (loop env) w).
Proof.
  intros ND T. rewrite loop_run.
  destruct (tracked_tick env p w ND T) as (N1 & A1 & L1).
  unfold tracked, card_world. cbn [prevStations Serial].
  rewrite events_app, transitions_app, transitions_cards, app_nil_r.
  now repeat split.
Qed.

Lemma tracked_loops (env : Env) (p : string) (n : nat) :
  (forall k, NoDup (snd (radio env k))) ->
  forall w, tracked p w -> tracked p (exec (loops env n) w).
Proof.
  intros ND. induction n as [| n IH]; intros w T; [exact T |].
  cbn [loops]. rewrite exec_seq. now apply IH, tracked_loop.
Qed.

(** X14: when no answer of the driver lists a station twice, then after any
    number of iterations of the main loop from the initial globals, card
    reads included, the records of every peer alternate between "connected"
    and "disconnected", and the last record of a peer is "connected" exactly
    when the peer is in the stored vector: a host that replays the channel
    knows the stored station set. *)
Theorem host_view_matches_stored_set (env : Env) (n : nat) (p : string) :
  (forall k, NoDup (snd (radio env k))) ->
  let w := exec (loops env n) boot in
  alternating (transitions p (events (Serial w))) = true /\
  last (transitions p (events (Serial w))) false =
    found_in (prevStations w) p.
Proof.
  intros ND. cbv zeta.
  destruct (tracked_loops env p n ND boot (tracked_boot p)) as (_ & A & L).
  now split.
Qed.

Lemma host_view_matches_stored_set_witness :
  let w := exec (loops env_busy 6) boot in
  alternating (transitions "02:00:00:00:00:0A" (events (Serial w))) = true /\
  last (transitions "02:00:00:00:00:0A" (events (Serial w))) false =
    found_in (prevStations w) "02:00:00:00:00:0A".
Proof.
  apply (host_view_matches_stored_set env_busy 6 "02:00:00:00:00:0A").
  intros k. cbn. destruct (Nat.even k); cbn.
  - repeat constructor; cbn; intuition discriminate.
  - repeat constructor; cbn; intuition.
Defined.

(** ** An idle iteration *)

(** X15: an iteration in which the tick is not due and the reader yields no
    card writes nothing on the channel and asks the driver nothing; it
    reads the clock once, polls the reader once and waits 10 ms. *)
Theorem loop_idle_iteration (env : Env) (w : World) :
  ulong (clock env (clock_reads w) - lastPoll w) < POLL_INTERVAL ->
  card_present (picc env (picc_reads w)) &&
    serial_read (picc env (picc_reads w)) = false ->
  exec (loop env) w =
  mkWorld (lastPoll w) (prevStations w) (Serial w) (mfrc522_uid w)
          (bus w ++ [delay 10]) (S (clock_reads w)) (radio_reads w)
          (S (picc_reads w)).
Proof.
  intros D C. apply Z.leb_gt in D. rewrite loop_run.
  assert (T : tick_world env w = exec (millis env) w).
  { unfold tick_world, due. now rewrite D. }
  rewrite T. unfold card_world, card_calls, card_ok.
  cbn [exec millis snd picc_reads lastPoll prevStations Serial mfrc522_uid
       bus clock_reads radio_reads].
  rewrite C. cbn [app]. now rewrite app_nil_r.
Qed.

Lemma loop_idle_iteration_witness :
  exec (loop env_BC) world_AB =
  mkWorld (lastPoll world_AB) (prevStations world_AB) (Serial world_AB)
          (mfrc522_uid world_AB) (bus world_AB ++ [delay 10])
          (S (clock_reads world_AB)) (radio_reads world_AB)
          (S (picc_reads world_AB)).
Proof.
  apply (loop_idle_iteration env_BC world_AB).
  - vm_compute. reflexivity.
  - vm_compute. reflexivity.
Defined.
